(** * docbot-fe: document index tracker, answer parser and chat session

    A shallow embedding of the client-side state logic of the dashboard
    ([Dashboard.tsx], [ChatArea.tsx], [lib/api.ts]) and the properties of
    its specification.

    Conventions.
    - A JavaScript string is the list of its UTF-16 code units.
    - React state is a record; a state setter is a function on that record;
      the setters called in one synchronous stretch of a handler are composed
      in source order and committed together.
    - Values supplied by the platform ([crypto.randomUUID], [new Date()],
      [fetch], [JSON.stringify], [String.prototype.localeCompare]) are
      inputs of the model. *)

From Stdlib Require Import ZArith NArith QArith List Ascii String Lia Sorted.
From Stdlib Require Import DecimalN.
From stdpp Require Import base list gmap.
From Equations Require Import Equations.
Import ListNotations.
Set Warnings "-register-all".

Local Open Scope N_scope.
Local Open Scope list_scope.

(** ** JavaScript strings *)

Abbreviation jsstring := (list N).

(** An ASCII literal as a JavaScript string. *)
Definition lit (s : string) : jsstring :=
  List.map N_of_ascii (list_ascii_of_string s).

Definition LBRACKET : N := 91.
Definition RBRACKET : N := 93.
Definition NEWLINE : N := 10.

(** [WhiteSpace] and [LineTerminator] code points of ECMAScript, the ones
    [String.prototype.trim] strips. *)
Definition is_ws (c : N) : bool :=
  (c =? 9) || (c =? 10) || (c =? 11) || (c =? 12) || (c =? 13) || (c =? 32)
  || (c =? 160) || (c =? 5760) || ((8192 <=? c) && (c <=? 8202))
  || (c =? 8232) || (c =? 8233) || (c =? 8239) || (c =? 8287)
  || (c =? 12288) || (c =? 65279).

Fixpoint trimStart (s : jsstring) : jsstring :=
  match s with
  | [] => []
  | c :: s' => if is_ws c then trimStart s' else s
  end.

Definition trimEnd (s : jsstring) : jsstring := rev (trimStart (rev s)).

(** [s.trim()] *)
Definition trim (s : jsstring) : jsstring := trimEnd (trimStart s).

(** A string is truthy when it is not empty. *)
Definition str_truthy (s : jsstring) : bool :=
  match s with [] => false | _ :: _ => true end.

(** [s.slice(1, -1)] *)
Definition slice_1_m1 (s : jsstring) : jsstring := removelast (tl s).

(** [a > b] on strings: lexicographic comparison of code units. *)
Fixpoint str_compare (a b : jsstring) : comparison :=
  match a, b with
  | [], [] => Eq
  | [], _ :: _ => Lt
  | _ :: _, [] => Gt
  | x :: a', y :: b' =>
      match x ?= y with
      | Eq => str_compare a' b'
      | Lt => Lt
      | Gt => Gt
      end
  end.

Definition str_gt (a b : jsstring) : bool :=
  match str_compare a b with Gt => true | _ => false end.

Definition str_eqb (a b : jsstring) : bool :=
  match str_compare a b with Eq => true | _ => false end.

(** ** Global regular-expression scans

    [re s] is the length of the match of the expression anchored at the head
    of [s], if there is one. A global scan tries the expression at each
    position from the left; after a match it resumes behind the match. Both
    expressions used by the program only match non-empty text. *)

Inductive segment :=
| Unmatched (c : N)
| Matched (m : jsstring).

Equations? scan (re : jsstring -> option nat) (s : jsstring) : list segment
  by wf (length s) lt :=
scan re [] := [];
scan re (c :: s') with re (c :: s') := {
  | Some (S k) := Matched (c :: take k s') :: scan re (drop k s');
  | _ := Unmatched c :: scan re s' }.
Proof. all: simpl; try rewrite length_drop; lia. Qed.

(** [Array.from(s.matchAll(re))], each match reduced to its text. *)
Definition matchAll (re : jsstring -> option nat) (s : jsstring) : list jsstring :=
  omap (fun g => match g with Matched m => Some m | Unmatched _ => None end)
       (scan re s).

(** [s.replace(re, by)] for a global [re]. *)
Definition replace (re : jsstring -> option nat) (by_ : jsstring) (s : jsstring)
  : jsstring :=
  concat (List.map (fun g => match g with Matched _ => by_ | Unmatched c => [c] end)
                   (scan re s)).

(** Length of the longest prefix whose code units satisfy [p]. *)
Fixpoint run_length (p : N -> bool) (s : jsstring) : nat :=
  match s with
  | [] => O
  | c :: s' => if p c then S (run_length p s') else O
  end.

Definition not_close (x : N) : bool := negb (x =? RBRACKET).
Definition is_newline (x : N) : bool := x =? NEWLINE.

(** [/\[[^\]]+\]/]: an opening bracket, the longest non-empty run of code
    units other than the closing bracket, and a closing bracket. A shorter
    run is followed by a code unit of the run, never by the closing bracket,
    so backtracking finds nothing more. *)
Definition re_bracket (s : jsstring) : option nat :=
  match s with
  | c :: s' =>
      if c =? LBRACKET then
        let n := run_length not_close s' in
        match n, drop n s' with
        | S _, d :: _ => if d =? RBRACKET then Some (S (S n)) else None
        | _, _ => None
        end
      else None
  | [] => None
  end.

(** [/\n{3,}/]: the longest run of newlines, when it has three or more. *)
Definition re_newlines (s : jsstring) : option nat :=
  let n := run_length is_newline s in
  if (3 <=? n)%nat then Some n else None.

(** ** Answer parser ([parseAnswer]) *)

Record ParsedAnswer := { pa_content : jsstring; pa_references : list jsstring }.

Definition includes (refs : list jsstring) (r : jsstring) : bool :=
  existsb (str_eqb r) refs.

(** The body of [matches.forEach]. *)
Definition push_reference (references : list jsstring) (m : jsstring)
  : list jsstring :=
  let ref := trim (slice_1_m1 m) in
  if str_truthy ref && negb (includes references ref)
  then references ++ [ref] else references.

Definition parseAnswer (answer : jsstring) : ParsedAnswer :=
  let matches := matchAll re_bracket answer in
  let references := fold_left push_reference matches [] in
  let content :=
    match matches with
    | _ :: _ => trim (replace re_newlines [NEWLINE; NEWLINE]
                        (replace re_bracket [] answer))
    | [] => trim answer
    end in
  {| pa_content := if (0 <? length content)%nat then content else trim answer;
     pa_references := references |}.


(** ** JavaScript values, as far as [JSON.parse] produces them *)

Inductive jsvalue :=
| JUndefined
| JNull
| JBool (b : bool)
| JNum (q : Q)
| JStr (s : jsstring)
| JArr (items : list jsvalue)
| JObj (members : list (jsstring * jsvalue)).

Inductive jstype := TUndefined | TObject | TBoolean | TNumber | TString.

Definition typeof (v : jsvalue) : jstype :=
  match v with
  | JUndefined => TUndefined
  | JNull | JArr _ | JObj _ => TObject
  | JBool _ => TBoolean
  | JNum _ => TNumber
  | JStr _ => TString
  end.

Definition is_type (t : jstype) (v : jsvalue) : bool :=
  match t, typeof v with
  | TUndefined, TUndefined | TObject, TObject | TBoolean, TBoolean
  | TNumber, TNumber | TString, TString => true
  | _, _ => false
  end.

Definition truthy (v : jsvalue) : bool :=
  match v with
  | JUndefined | JNull => false
  | JBool b => b
  | JNum q => negb (Qeq_bool q 0)
  | JStr s => str_truthy s
  | JArr _ | JObj _ => true
  end.

(** The text of a value that is a string (empty for any other value; only
    used behind a [typeof v === "string"] test). *)
Definition str_of (v : jsvalue) : jsstring :=
  match v with JStr s => s | _ => [] end.

(** Template-literal rendering of a non-negative integer. *)
Fixpoint uint_digits (u : Decimal.uint) : jsstring :=
  match u with
  | Decimal.Nil => []
  | Decimal.D0 u => 48 :: uint_digits u
  | Decimal.D1 u => 49 :: uint_digits u
  | Decimal.D2 u => 50 :: uint_digits u
  | Decimal.D3 u => 51 :: uint_digits u
  | Decimal.D4 u => 52 :: uint_digits u
  | Decimal.D5 u => 53 :: uint_digits u
  | Decimal.D6 u => 54 :: uint_digits u
  | Decimal.D7 u => 55 :: uint_digits u
  | Decimal.D8 u => 56 :: uint_digits u
  | Decimal.D9 u => 57 :: uint_digits u
  end.

Definition number_to_string (n : N) : jsstring := uint_digits (N.to_uint n).

(** A thrown value: an instance of [Error] with its message, or anything
    else. *)
Inductive Thrown :=
| ErrorObject (message : jsstring)
| OtherValue.

(** ** [lib/api.ts] *)

Record QueryResponse := {
  qr_answer : jsvalue;
  qr_response : jsvalue;
  qr_result : jsvalue;
  qr_data : jsvalue }.

Record IndexDocumentsResponse := { ir_message : option jsstring }.

(** What [fetch] hands back: the [ok] flag, the status and the outcome of
    [response.json()]. *)
Record FetchResponse (T : Type) := {
  fr_ok : bool;
  fr_status : N;
  fr_json : Thrown + T }.
Arguments fr_ok {T} _.
Arguments fr_status {T} _.
Arguments fr_json {T} _.

(** [fetch] rejects or resolves. *)
Definition FetchResult (T : Type) : Type := (Thrown + FetchResponse T)%type.

Definition queryDocuments (fetched : FetchResult QueryResponse)
  : Thrown + QueryResponse :=
  match fetched with
  | inl e => inl e
  | inr response =>
      if negb (fr_ok response)
      then inl (ErrorObject (lit "Query request failed with status "
                               ++ number_to_string (fr_status response)))
      else fr_json response
  end.

Definition indexDocuments (fetched : FetchResult IndexDocumentsResponse)
  : Thrown + IndexDocumentsResponse :=
  match fetched with
  | inl e => inl e
  | inr response =>
      if negb (fr_ok response)
      then inl (ErrorObject (lit "Index request failed with status "
                               ++ number_to_string (fr_status response)))
      else fr_json response
  end.

(** ** [extractAnswer] *)

Definition NO_ANSWER : jsstring :=
  [75; 104; 244; 110; 103; 32; 116; 236; 109; 32; 116; 104; 7845; 121; 32; 99;
   226; 117; 32; 116; 114; 7843; 32; 108; 7901; 105; 32; 112; 104; 249; 32;
   104; 7907; 112; 32; 99; 104; 111; 32; 99; 226; 117; 32; 104; 7887; 105; 32;
   110; 224; 121; 46].

Section ExtractAnswer.
(** [JSON.stringify(v, null, 2)] *)
Variable JSON_stringify_2 : jsvalue -> jsstring.

(** [typeof v === "string" && v.trim()] *)
Definition string_with_text (v : jsvalue) : bool :=
  is_type TString v && str_truthy (trim (str_of v)).

Definition extractAnswer (data : QueryResponse) : jsstring :=
  if string_with_text (qr_answer data) then trim (str_of (qr_answer data))
  else if string_with_text (qr_response data) then trim (str_of (qr_response data))
  else if string_with_text (qr_result data) then trim (str_of (qr_result data))
  else if truthy (qr_data data) && string_with_text (qr_data data)
       then trim (str_of (qr_data data))
  else if truthy (qr_data data) && is_type TObject (qr_data data)
       then JSON_stringify_2 (qr_data data)
  else NO_ANSWER.
End ExtractAnswer.

(** ** Chat session ([ChatArea.tsx]) *)

Inductive MessageRole := user | assistant.
Inductive MessageStatus := idle | loading | complete | error.

Record MessageItem := {
  m_id : jsstring;
  m_role : MessageRole;
  m_content : jsstring;
  m_status : MessageStatus;
  m_createdAt : jsstring;
  m_references : option (list jsstring) }.

(** The component state [handleSend] reads and writes: the text of the input
    box, the message list and the in-flight flag. *)
Record ChatState := {
  message : jsstring;
  messages : list MessageItem;
  isSending : bool }.

Definition setMessage (v : jsstring) (st : ChatState) : ChatState :=
  {| message := v; messages := messages st; isSending := isSending st |}.

Definition setMessages (f : list MessageItem -> list MessageItem) (st : ChatState)
  : ChatState :=
  {| message := message st; messages := f (messages st); isSending := isSending st |}.

Definition setIsSending (v : bool) (st : ChatState) : ChatState :=
  {| message := message st; messages := messages st; isSending := v |}.

(** What one call of [handleSend] draws from the platform:
    [new Date().toISOString()] and two results of [generateId()]. *)
Record Drawn := {
  dr_createdAt : jsstring;
  dr_userId : jsstring;
  dr_assistantId : jsstring }.

(** What a call does to the outside: the remote query and the toast. *)
Inductive Effect :=
| QueryCall (query : jsstring)
| ToastCall (title description : jsstring).

Definition QUERY_FAILED : jsstring :=
  [75; 104; 244; 110; 103; 32; 116; 104; 7875; 32; 108; 7845; 121; 32; 99; 226;
   117; 32; 116; 114; 7843; 32; 108; 7901; 105; 32; 116; 7915; 32; 104; 7879;
   32; 116; 104; 7889; 110; 103; 46].

Definition TOAST_TITLE : jsstring :=
  [75; 104; 244; 110; 103; 32; 116; 104; 7875; 32; 103; 7917; 105; 32; 99; 226;
   117; 32; 104; 7887; 105].

(** [error instanceof Error ? error.message : "..."] *)
Definition description_of (e : Thrown) : jsstring :=
  match e with
  | ErrorObject msg => msg
  | OtherValue => QUERY_FAILED
  end.

Definition userMessage_of (d : Drawn) (question : jsstring) : MessageItem :=
  {| m_id := dr_userId d; m_role := user; m_content := question;
     m_status := complete; m_createdAt := dr_createdAt d;
     m_references := None |}.

Definition pendingAssistant_of (d : Drawn) : MessageItem :=
  {| m_id := dr_assistantId d; m_role := assistant; m_content := [];
     m_status := loading; m_createdAt := dr_createdAt d;
     m_references := Some [] |}.

(** [{ ...item, content, status, references }] *)
Definition settle_item (content : jsstring) (status : MessageStatus)
    (references : list jsstring) (item : MessageItem) : MessageItem :=
  {| m_id := m_id item; m_role := m_role item; m_content := content;
     m_status := status; m_createdAt := m_createdAt item;
     m_references := Some references |}.

(** [prev.map(item => item.id === assistantMessageId ? {...} : item)] *)
Definition settle_messages (assistantMessageId content : jsstring)
    (status : MessageStatus) (references : list jsstring)
    (prev : list MessageItem) : list MessageItem :=
  List.map (fun item =>
              if bool_decide (m_id item = assistantMessageId)
              then settle_item content status references item
              else item) prev.

Section HandleSend.
Variable JSON_stringify_2 : jsvalue -> jsstring.
(** The [isReady] prop. *)
Variable isReady : bool.

(** [(payload ?? message).trim()] *)
Definition question_of (st : ChatState) (payload : option jsstring) : jsstring :=
  trim (default (message st) payload).

(** [!question || !isReady || isSending] *)
Definition send_rejected (st : ChatState) (payload : option jsstring) : bool :=
  negb (str_truthy (question_of st payload)) || negb isReady || isSending st.

(** The stretch of [handleSend] before [await]. [None]: the early return. *)
Definition handleSend_begin (d : Drawn) (st : ChatState)
    (payload : option jsstring) : option (ChatState * jsstring) :=
  if send_rejected st payload then None
  else
    let question := question_of st payload in
    Some (setIsSending true
            (setMessage []
               (setMessages
                  (fun prev => prev ++ [userMessage_of d question;
                                        pendingAssistant_of d]) st)),
          question).

(** The stretch after [await]: the [try] continuation or the [catch]
    block, then [finally]. *)
Definition handleSend_settle (assistantMessageId : jsstring)
    (outcome : Thrown + QueryResponse) (st : ChatState)
  : ChatState * list Effect :=
  match outcome with
  | inr response =>
      let answer := extractAnswer JSON_stringify_2 response in
      let parsed := parseAnswer answer in
      (setIsSending false
         (setMessages
            (settle_messages assistantMessageId (pa_content parsed) complete
                             (pa_references parsed)) st),
       [])
  | inl err =>
      let description := description_of err in
      (setIsSending false
         (setMessages
            (settle_messages assistantMessageId description error [])
            st),
       [ToastCall TOAST_TITLE description])
  end.

(** One call of [handleSend], run to completion against the answer of the
    network to the question. *)
Definition handleSend (d : Drawn)
    (net : jsstring -> FetchResult QueryResponse)
    (st : ChatState) (payload : option jsstring) : ChatState * list Effect :=
  match handleSend_begin d st payload with
  | None => (st, [])
  | Some (st1, question) =>
      let '(st2, effects) :=
        handleSend_settle (dr_assistantId d) (queryDocuments (net question)) st1 in
      (st2, QueryCall question :: effects)
  end.
End HandleSend.

(** ** Dashboard ([Dashboard.tsx]) *)

Record IndexedDocument := {
  d_id : jsstring;
  d_name : jsstring;
  d_size : N;
  (** [None]: the field is absent (the code guards it with [?? ""]). *)
  d_indexedAt : option jsstring }.

Record File := { f_name : jsstring; f_size : N }.

Record Conversation := {
  c_id : jsstring;
  c_title : jsstring;
  c_model : jsstring;
  c_timestamp : jsstring }.

Record DashboardState := {
  isIndexing : bool;
  isReady : bool;
  documents : list IndexedDocument;
  lastIndexedAt : option jsstring;
  lastMessage : option jsstring;
  conversations : list Conversation;
  activeConversationId : jsstring }.

Definition initialDashboard : DashboardState :=
  {| isIndexing := false; isReady := true; documents := [];
     lastIndexedAt := None; lastMessage := None; conversations := [];
     activeConversationId := lit "default" |}.

Definition setIsIndexing (v : bool) (st : DashboardState) : DashboardState :=
  {| isIndexing := v; isReady := isReady st; documents := documents st;
     lastIndexedAt := lastIndexedAt st; lastMessage := lastMessage st;
     conversations := conversations st;
     activeConversationId := activeConversationId st |}.

Definition setIsReady (v : bool) (st : DashboardState) : DashboardState :=
  {| isIndexing := isIndexing st; isReady := v; documents := documents st;
     lastIndexedAt := lastIndexedAt st; lastMessage := lastMessage st;
     conversations := conversations st;
     activeConversationId := activeConversationId st |}.

Definition setDocuments (f : list IndexedDocument -> list IndexedDocument)
    (st : DashboardState) : DashboardState :=
  {| isIndexing := isIndexing st; isReady := isReady st;
     documents := f (documents st);
     lastIndexedAt := lastIndexedAt st; lastMessage := lastMessage st;
     conversations := conversations st;
     activeConversationId := activeConversationId st |}.

Definition setLastIndexedAt (v : option jsstring) (st : DashboardState)
  : DashboardState :=
  {| isIndexing := isIndexing st; isReady := isReady st; documents := documents st;
     lastIndexedAt := v; lastMessage := lastMessage st;
     conversations := conversations st;
     activeConversationId := activeConversationId st |}.

Definition setLastMessage (v : option jsstring) (st : DashboardState)
  : DashboardState :=
  {| isIndexing := isIndexing st; isReady := isReady st; documents := documents st;
     lastIndexedAt := lastIndexedAt st; lastMessage := v;
     conversations := conversations st;
     activeConversationId := activeConversationId st |}.

(** *** [Array.prototype.sort]

    With a consistent comparator the result of [sort] is the stable sorted
    arrangement, whatever algorithm the engine runs; insertion from the right
    computes it. *)

Fixpoint sort_insert {A} (comparefn : A -> A -> Z) (x : A) (l : list A) : list A :=
  match l with
  | [] => [x]
  | y :: l' => if (comparefn x y <=? 0)%Z then x :: l
               else y :: sort_insert comparefn x l'
  end.

Definition array_sort {A} (comparefn : A -> A -> Z) (l : list A) : list A :=
  fold_right (sort_insert comparefn) [] l.

(** [doc.indexedAt ?? ""] *)
Definition indexedAt_or_empty (doc : IndexedDocument) : jsstring :=
  default [] (d_indexedAt doc).

(** The body of [indexedDocuments.forEach] in the [setDocuments] updater:
    [findIndex] by name, then replace in place or [push]. *)
Definition upsert (combined : list IndexedDocument) (doc : IndexedDocument)
  : list IndexedDocument :=
  match list_find (fun item => d_name item = d_name doc) combined with
  | Some (existingIndex, _) => <[existingIndex := doc]> combined
  | None => combined ++ [doc]
  end.

Section Merge.
(** [a.localeCompare(b)] *)
Variable localeCompare : jsstring -> jsstring -> Z.

(** [(a, b) => (b.indexedAt ?? "").localeCompare(a.indexedAt ?? "")] *)
Definition by_indexedAt_desc (a b : IndexedDocument) : Z :=
  localeCompare (indexedAt_or_empty b) (indexedAt_or_empty a).

(** The updater handed to [setDocuments]: the merge of the specification. *)
Definition mergeDocuments (prev indexedDocuments : list IndexedDocument)
  : list IndexedDocument :=
  array_sort by_indexedAt_desc (fold_left upsert indexedDocuments prev).
End Merge.

(** The updater of the earlier dashboard ([pages/Dashboard.tsx]):
    [prev => [...prev, ...indexedDocuments]]. *)
Definition appendDocuments (prev indexedDocuments : list IndexedDocument)
  : list IndexedDocument :=
  prev ++ indexedDocuments.

(** [files.map(file => ({ id: generateId(), name, size, indexedAt }))];
    [generateId i] is the identifier drawn for the file at index [i]. *)
Definition indexedDocuments_of (generateId : nat -> jsstring)
    (indexedAt : jsstring) (files : list File) : list IndexedDocument :=
  imap (fun i file => {| d_id := generateId i; d_name := f_name file;
                         d_size := f_size file;
                         d_indexedAt := Some indexedAt |}) files.

(** [handleIndexDocuments] up to [await]. *)
Definition index_begin (st : DashboardState) : DashboardState :=
  setIsReady false (setIsIndexing true st).

(** The [finally] block. *)
Definition index_finally (st : DashboardState) : DashboardState :=
  setIsReady true (setIsIndexing false st).

Section HandleIndexDocuments.
(** The two versions of [handleIndexDocuments] differ in the updater they
    hand to [setDocuments] only: [mergeDocuments localeCompare] in the
    dashboard with persistence, [appendDocuments] in the earlier one. *)
Variable updater : list IndexedDocument -> list IndexedDocument -> list IndexedDocument.

(** The rest of the [try] block. *)
Definition index_try (generateId : nat -> jsstring) (indexedAt : jsstring)
    (files : list File) (response : IndexDocumentsResponse)
    (st : DashboardState) : DashboardState :=
  setIsReady true
    (setLastMessage (ir_message response)
       (setLastIndexedAt (Some indexedAt)
          (setDocuments
             (fun prev => updater prev
                            (indexedDocuments_of generateId indexedAt files))
             st))).

(** [handleIndexDocuments] after [await]: the state it commits and what
    the returned promise settles to. *)
Definition index_settle (generateId : nat -> jsstring) (indexedAt : jsstring)
    (files : list File) (outcome : Thrown + IndexDocumentsResponse)
    (st : DashboardState)
  : DashboardState * (Thrown + IndexDocumentsResponse * jsstring) :=
  match outcome with
  | inr response =>
      (index_finally (index_try generateId indexedAt files response st),
       inr (response, indexedAt))
  | inl err => (index_finally st, inl err)
  end.

(** One call of [handleIndexDocuments], run to completion against the answer
    of the network to the upload. *)
Definition handleIndexDocuments (generateId : nat -> jsstring)
    (indexedAt : jsstring) (files : list File)
    (fetched : FetchResult IndexDocumentsResponse) (st : DashboardState)
  : DashboardState * (Thrown + IndexDocumentsResponse * jsstring) :=
  index_settle generateId indexedAt files (indexDocuments fetched) (index_begin st).
End HandleIndexDocuments.

(** *** The [lastIndexedAt] effect *)

(** [!latest] for [latest : string | undefined] *)
Definition str_falsy (v : option jsstring) : bool :=
  match v with Some (_ :: _) => false | _ => true end.

(** [a > b]; a comparison with [undefined] is false. *)
Definition opt_gt (a b : option jsstring) : bool :=
  match a, b with
  | Some x, Some y => str_gt x y
  | _, _ => false
  end.

(** The reducer
    [!latest || (doc.indexedAt && doc.indexedAt > latest) ? doc.indexedAt : latest]. *)
Definition latest_step (latest : option jsstring) (doc : IndexedDocument)
  : option jsstring :=
  if str_falsy latest
     || (negb (str_falsy (d_indexedAt doc)) && opt_gt (d_indexedAt doc) latest)
  then d_indexedAt doc else latest.

(** [docs.reduce(step, docs[0]?.indexedAt ?? "")] *)
Definition reduce_latest (docs : list IndexedDocument) : option jsstring :=
  fold_left latest_step docs (Some (default [] (head docs ≫= d_indexedAt))).

(** The effect on [documents] that derives [lastIndexedAt]. *)
Definition effect_latestIndexedAt (st : DashboardState) : DashboardState :=
  if (length (documents st) =? 0)%nat then st
  else setLastIndexedAt (reduce_latest (documents st)) st.

(** The part of the mount effect that restores the documents;
    [parsed] is the result of [JSON.parse] on the stored text. *)
Definition mount_documents (parsed : list IndexedDocument) (st : DashboardState)
  : DashboardState :=
  if (0 <? length parsed)%nat
  then setLastIndexedAt (reduce_latest parsed)
         (setIsReady true (setDocuments (fun _ => parsed) st))
  else setDocuments (fun _ => parsed) st.

(** *** Persistence effects *)

Definition DOCUMENT_STORAGE_KEY : jsstring := lit "indexed-documents".
Definition CONVERSATION_STORAGE_KEY : jsstring := lit "conversations".

Definition document_to_js (doc : IndexedDocument) : jsvalue :=
  JObj ([(lit "id", JStr (d_id doc)); (lit "name", JStr (d_name doc));
         (lit "size", JNum (inject_Z (Z.of_N (d_size doc))))]
        ++ match d_indexedAt doc with
           | Some t => [(lit "indexedAt", JStr t)]
           | None => []
           end).

Definition conversation_to_js (c : Conversation) : jsvalue :=
  JObj [(lit "id", JStr (c_id c)); (lit "title", JStr (c_title c));
        (lit "model", JStr (c_model c)); (lit "timestamp", JStr (c_timestamp c))].

Section Persistence.
(** [JSON.stringify(v)] *)
Variable JSON_stringify : jsvalue -> jsstring.

(** [window.localStorage], or [None] where [typeof window === "undefined"]. *)
Definition persist_documents (window : option (gmap jsstring jsstring))
    (docs : list IndexedDocument) : option (gmap jsstring jsstring) :=
  match window with
  | None => None
  | Some localStorage =>
      Some (<[DOCUMENT_STORAGE_KEY :=
                JSON_stringify (JArr (List.map document_to_js docs))]> localStorage)
  end.

Definition persist_conversations (window : option (gmap jsstring jsstring))
    (convs : list Conversation) : option (gmap jsstring jsstring) :=
  match window with
  | None => None
  | Some localStorage =>
      if (length convs =? 0)%nat then Some localStorage
      else Some (<[CONVERSATION_STORAGE_KEY :=
                     JSON_stringify (JArr (List.map conversation_to_js convs))]>
                   localStorage)
  end.
End Persistence.

(** *** The indexing lifecycle

    One event per committed stretch of code. The document manager disables
    its controls while [isIndexing] holds, so an operation begins only when
    none is under way; the flag [pending] records that the awaited request
    has not settled yet. *)

Inductive IndexEvent :=
| Mounted (parsed : list IndexedDocument)
| Begun
| Settled (generateId : nat -> jsstring) (indexedAt : jsstring)
          (files : list File) (outcome : Thrown + IndexDocumentsResponse)
| DocumentsChanged.

Section Lifecycle.
Variable updater : list IndexedDocument -> list IndexedDocument -> list IndexedDocument.

Definition lifecycle_step (cfg : bool * DashboardState) (ev : IndexEvent)
  : option (bool * DashboardState) :=
  let '(pending, st) := cfg in
  match ev, pending with
  | Mounted parsed, false => Some (false, mount_documents parsed st)
  | Begun, false => Some (true, index_begin st)
  | Settled generateId indexedAt files outcome, true =>
      Some (false,
            fst (index_settle updater generateId indexedAt files outcome st))
  | DocumentsChanged, _ => Some (pending, effect_latestIndexedAt st)
  | _, _ => None
  end.

Fixpoint lifecycle_run (cfg : bool * DashboardState) (evs : list IndexEvent)
  : option (bool * DashboardState) :=
  match evs with
  | [] => Some cfg
  | ev :: evs' =>
      match lifecycle_step cfg ev with
      | Some cfg' => lifecycle_run cfg' evs'
      | None => None
      end
  end.
End Lifecycle.

(** The comparison [localeCompare] makes between strings of ASCII digits and
    the fixed punctuation of [toISOString], used for concrete runs. *)
Definition localeCompare_ordinal (a b : jsstring) : Z :=
  match str_compare a b with Lt => (-1)%Z | Eq => 0%Z | Gt => 1%Z end.

(** ** Predicates used by the statements *)

(** Only white space. *)
Definition blank (s : jsstring) : bool := forallb is_ws s.

(** A string that [trim] leaves alone: empty, or with a first and a last code
    unit that are not white space. *)
Definition tight (s : jsstring) : Prop :=
  trimStart s = s /\ trimStart (rev s) = rev s.

(** The bracket expression matches at no position of [s]. *)
Fixpoint mfree (s : jsstring) : Prop :=
  match s with
  | [] => True
  | _ :: s' => re_bracket s = None /\ mfree s'
  end.

(** What is left of the answer once its bracketed spans are removed is empty
    or white space only, so the parser shows the trimmed answer itself. *)
Definition only_spans (answer : jsstring) : bool :=
  match matchAll re_bracket answer with
  | [] => false
  | _ :: _ => blank (replace re_bracket [] answer)
  end.

(** The fields of a response in the order [extractAnswer] consults them. *)
Definition response_fields (data : QueryResponse) : list jsvalue :=
  [qr_answer data; qr_response data; qr_result data; qr_data data].

(** An object or an array. *)
Definition is_structured (v : jsvalue) : bool :=
  match v with JArr _ | JObj _ => true | _ => false end.

(** A string that is not empty. *)
Definition nonempty_string (v : jsvalue) : bool :=
  is_type TString v && str_truthy (str_of v).

Section ExtractAnswerSpec.
Variable JSON_stringify_2 : jsvalue -> jsstring.

(** The extraction as the specification words it: the first non-empty
    value among the fields, else the serialized structured data, else the
    fallback. *)
Definition extractAnswer_first_nonempty (data : QueryResponse) : jsstring :=
  match List.find nonempty_string (response_fields data) with
  | Some v => str_of v
  | None => if is_structured (qr_data data)
            then JSON_stringify_2 (qr_data data) else NO_ANSWER
  end.

(** The extraction with white space taken into account: the trimmed text
    of the first field that is a string with more than white space in it,
    else the serialized structured data, else the fallback. *)
Definition extractAnswer_first_with_text (data : QueryResponse) : jsstring :=
  match List.find string_with_text (response_fields data) with
  | Some v => trim (str_of v)
  | None => if is_structured (qr_data data)
            then JSON_stringify_2 (qr_data data) else NO_ANSWER
  end.
End ExtractAnswerSpec.

(** [{"answer": text}] *)
Definition answer_only (text : jsstring) : QueryResponse :=
  {| qr_answer := JStr text; qr_response := JUndefined;
     qr_result := JUndefined; qr_data := JUndefined |}.

(** The identifier drawn for the placeholder is new to the session. *)
Definition fresh_ids (d : Drawn) (st : ChatState) : Prop :=
  dr_userId d <> dr_assistantId d
  /\ Forall (fun m => m_id m <> dr_assistantId d) (messages st).

(** Inputs of the concrete runs. *)
Definition drawn_ex : Drawn :=
  {| dr_createdAt := lit "2024-05-01T10:00:00.000Z";
     dr_userId := lit "u-1"; dr_assistantId := lit "a-1" |}.

Definition idle_chat (text : string) : ChatState :=
  {| message := lit text; messages := []; isSending := false |}.

Definition fetch_answer (text : string) (_ : jsstring) : FetchResult QueryResponse :=
  inr {| fr_ok := true; fr_status := 200; fr_json := inr (answer_only (lit text)) |}.

Definition fetch_status (status : N) (_ : jsstring) : FetchResult QueryResponse :=
  inr {| fr_ok := false; fr_status := status; fr_json := inl OtherValue |}.

(** [fetch] rejects with [e]. *)
Definition fetch_throws (e : Thrown) (_ : jsstring) : FetchResult QueryResponse :=
  inl e.

(** The flags agree with the progress of the indexing operation:
    [isIndexing] holds exactly while the request is pending and [isReady]
    exactly while it is not. *)
Definition flags_agree (cfg : bool * DashboardState) : Prop :=
  isIndexing (snd cfg) = fst cfg /\ isReady (snd cfg) = negb (fst cfg).

Definition file_ex : File := {| f_name := lit "rules.pdf"; f_size := 1024 |}.

(** One indexing operation from start to finish: the request is sent, it
    succeeds, and the effect on [documents] runs. *)
Definition one_indexing : list IndexEvent :=
  [Begun;
   Settled (fun _ => lit "id-1") (lit "2024-05-01T10:00:00.000Z") [file_ex]
           (inr {| ir_message := Some (lit "indexed") |});
   DocumentsChanged].

(** [a <= b] in the order of [>] on strings. *)
Definition str_le (a b : jsstring) : Prop := str_gt a b = false.

(** [latest ?? ""] *)
Definition latest_or_empty (latest : option jsstring) : jsstring := default [] latest.

Definition doc_ex (name stamp : string) : IndexedDocument :=
  {| d_id := lit name; d_name := lit name; d_size := 1;
     d_indexedAt := Some (lit stamp) |}.

Definition three_documents : DashboardState :=
  setDocuments (fun _ => [doc_ex "a.pdf" "2024-05-01T10:00:00.000Z";
                          doc_ex "b.pdf" "2024-06-01T10:00:00.000Z";
                          doc_ex "c.pdf" "2024-04-01T10:00:00.000Z"])
    initialDashboard.

(** A consistent comparator in the sense of [Array.prototype.sort], stated
    for [localeCompare]: of two strings one ranks no higher than the other,
    and ranking no higher is transitive. *)
Definition consistent_comparator (lc : jsstring -> jsstring -> Z) : Prop :=
  (forall a b, (0 < lc a b)%Z -> (lc b a <= 0)%Z)
  /\ (forall a b c, (lc a b <= 0)%Z -> (lc b c <= 0)%Z -> (lc a c <= 0)%Z).

(** [a] may stand before [b]: the [indexedAt] of [b] ranks no higher. *)
Definition not_after (lc : jsstring -> jsstring -> Z) (a b : IndexedDocument) : Prop :=
  (by_indexedAt_desc lc a b <= 0)%Z.

(** [d] in place of a document of the same name. *)
Definition supersede (d x : IndexedDocument) : IndexedDocument :=
  if decide (d_name x = d_name d) then d else x.

(** What becomes of [x] when a batch is merged into a list that holds it. *)
Definition overwrite (batch : list IndexedDocument) (x : IndexedDocument)
  : IndexedDocument :=
  fold_left (fun y d => supersede d y) batch x.

Definition two_named_alike : list IndexedDocument :=
  [ {| d_id := lit "1"; d_name := lit "a.pdf"; d_size := 1;
       d_indexedAt := Some (lit "2024-01-01T00:00:00.000Z") |};
    {| d_id := lit "2"; d_name := lit "a.pdf"; d_size := 1;
       d_indexedAt := Some (lit "2024-05-01T00:00:00.000Z") |} ].

Definition reindexed : list IndexedDocument :=
  [ {| d_id := lit "3"; d_name := lit "a.pdf"; d_size := 2;
       d_indexedAt := Some (lit "2024-03-01T00:00:00.000Z") |} ].

(** [a] may stand before [b] in an array sorted with [comparefn]. *)
Definition ranks_first {A} (comparefn : A -> A -> Z) (a b : A) : Prop :=
  (comparefn a b <= 0)%Z.

(** ** The other handlers of the chat area *)

Section ChatHandlers.
Variable JSON_stringify_2 : jsvalue -> jsstring.
Variable isReady : bool.

(** [handleSendClick]: the handler of the send button. *)
Definition handleSendClick (d : Drawn) (net : jsstring -> FetchResult QueryResponse)
    (st : ChatState) : ChatState * list Effect :=
  if negb (str_truthy (trim (message st))) || negb isReady then (st, [])
  else handleSend JSON_stringify_2 isReady d net st None.

(** [handleKeyDown]: Enter without Shift sends and prevents the default
    action of the key; the third component tells whether [preventDefault]
    was called. *)
Definition handleKeyDown (d : Drawn) (net : jsstring -> FetchResult QueryResponse)
    (key : jsstring) (shiftKey : bool) (st : ChatState)
  : ChatState * list Effect * bool :=
  if bool_decide (key = lit "Enter") && negb shiftKey
  then (handleSend JSON_stringify_2 isReady d net st None, true)
  else (st, [], false).

(** [handleQuickPrompt]: [setMessage(prompt)], then [handleSend(prompt)]. *)
Definition handleQuickPrompt (d : Drawn)
    (net : jsstring -> FetchResult QueryResponse)
    (prompt : jsstring) (st : ChatState) : ChatState * list Effect :=
  handleSend JSON_stringify_2 isReady d net (setMessage prompt st) (Some prompt).
End ChatHandlers.



Definition STORAGE_PREFIX : jsstring := lit "chat-history".
Definition DOCUMENT_MESSAGE_KEY : jsstring := lit "indexed-documents:last-message".

(** [conversationId ? `${STORAGE_PREFIX}:${conversationId}` : undefined] *)
Definition storageKey (conversationId : jsstring) : option jsstring :=
  if str_truthy conversationId
  then Some (STORAGE_PREFIX ++ lit ":" ++ conversationId)
  else None.

Definition role_to_js (r : MessageRole) : jsvalue :=
  JStr (match r with user => lit "user" | assistant => lit "assistant" end).

Definition status_to_js (s : MessageStatus) : jsvalue :=
  JStr (match s with
        | idle => lit "idle" | loading => lit "loading"
        | complete => lit "complete" | error => lit "error"
        end).

Definition message_to_js (m : MessageItem) : jsvalue :=
  JObj ([(lit "id", JStr (m_id m)); (lit "role", role_to_js (m_role m));
         (lit "content", JStr (m_content m));
         (lit "status", status_to_js (m_status m));
         (lit "createdAt", JStr (m_createdAt m))]
        ++ match m_references m with
           | Some refs => [(lit "references", JArr (List.map JStr refs))]
           | None => []
           end).

Section ChatStorage.
Variable JSON_stringify : jsvalue -> jsstring.

(** The cleanup of the storage effect: the message list is written under the
    key of the conversation. *)
Definition flush_history (window : option (gmap jsstring jsstring))
    (conversationId : jsstring) (msgs : list MessageItem)
  : option (gmap jsstring jsstring) :=
  match storageKey conversationId, window with
  | Some key, Some localStorage =>
      Some (<[key := JSON_stringify (JArr (List.map message_to_js msgs))]>
              localStorage)
  | _, _ => window
  end.
End ChatStorage.

(** Every message is settled: none is idle or loading. *)
Definition all_settled (msgs : list MessageItem) : Prop :=
  Forall (fun m => m_status m = complete \/ m_status m = error) msgs.

(** The messages come in pairs, a user message followed by an assistant
    message. *)
Fixpoint paired (msgs : list MessageItem) : Prop :=
  match msgs with
  | [] => True
  | u :: rest =>
      match rest with
      | a :: msgs' => m_role u = user /\ m_role a = assistant /\ paired msgs'
      | [] => False
      end
  end.

(** What the user does in the chat area. *)
Inductive ChatEvent :=
| Typed (text : jsstring)
| SendClicked (d : Drawn) (net : jsstring -> FetchResult QueryResponse)
| KeyPressed (d : Drawn) (net : jsstring -> FetchResult QueryResponse)
             (key : jsstring) (shiftKey : bool)
| QuickPrompt (d : Drawn) (net : jsstring -> FetchResult QueryResponse)
              (prompt : jsstring).

Section ChatRun.
Variable JSON_stringify_2 : jsvalue -> jsstring.

(** The state after an event, run to completion; [ready] is the [isReady]
    prop at the time of the event. *)
Definition chat_step (st : ChatState) (ev : bool * ChatEvent) : ChatState :=
  match snd ev with
  | Typed text => setMessage text st
  | SendClicked d net => fst (handleSendClick JSON_stringify_2 (fst ev) d net st)
  | KeyPressed d net key shiftKey =>
      fst (fst (handleKeyDown JSON_stringify_2 (fst ev) d net key shiftKey st))
  | QuickPrompt d net prompt =>
      fst (handleQuickPrompt JSON_stringify_2 (fst ev) d net prompt st)
  end.

Definition chat_run (st : ChatState) (evs : list (bool * ChatEvent)) : ChatState :=
  fold_left chat_step evs st.
End ChatRun.

Definition newChat : ChatState :=
  {| message := []; messages := []; isSending := false |}.

(** *** The last status message *)

(** The effect on [lastMessage]: the message is written under its key, or
    the key is removed when there is no message to keep. *)
Definition persist_lastMessage (window : option (gmap jsstring jsstring))
    (lastMessage_ : option jsstring) : option (gmap jsstring jsstring) :=
  match window with
  | None => None
  | Some localStorage =>
      match lastMessage_ with
      | Some (c :: s) => Some (<[DOCUMENT_MESSAGE_KEY := c :: s]> localStorage)
      | _ => Some (delete DOCUMENT_MESSAGE_KEY localStorage)
      end
  end.

(** The last statements of the [try] block of the mount effect:
    [if (storedMessage) setLastMessage(storedMessage)]. They are reached only
    when the documents before them were read without an exception; the
    effect as a whole is [mount_stored_documents]. *)
Definition mount_lastMessage (window : option (gmap jsstring jsstring))
    (st : DashboardState) : DashboardState :=
  match window with
  | None => st
  | Some localStorage =>
      match localStorage !! DOCUMENT_MESSAGE_KEY with
      | Some (c :: s) => setLastMessage (Some (c :: s)) st
      | _ => st
      end
  end.

(** ** Document manager ([DocumentManager.tsx]) *)

(** The state of the component: the files picked and the error shown. *)
Record ManagerState := {
  selectedFiles : list File;
  errorText : option jsstring }.

Definition setSelectedFiles (f : list File -> list File) (ms : ManagerState)
  : ManagerState :=
  {| selectedFiles := f (selectedFiles ms); errorText := errorText ms |}.

Definition setError (v : option jsstring) (ms : ManagerState) : ManagerState :=
  {| selectedFiles := selectedFiles ms; errorText := v |}.

Definition NO_FILE_SELECTED : jsstring :=
  [72; 227; 121; 32; 99; 104; 7885; 110; 32; 237; 116; 32; 110; 104; 7845;
   116; 32; 109; 7897; 116; 32; 116; 224; 105; 32; 108; 105; 7879; 117; 32;
   80; 68; 70; 32; 273; 7875; 32; 108; 7853; 112; 32; 99; 104; 7881; 32; 109;
   7909; 99; 46].

Definition INDEX_SUCCEEDED : jsstring :=
  [76; 7853; 112; 32; 99; 104; 7881; 32; 109; 7909; 99; 32; 116; 104; 224;
   110; 104; 32; 99; 244; 110; 103].

Definition INDEXED_PREFIX : jsstring :=
  [272; 227; 32; 108; 7853; 112; 32; 99; 104; 7881; 32; 109; 7909; 99; 32].

Definition INDEXED_INFIX : jsstring :=
  [32; 116; 224; 105; 32; 108; 105; 7879; 117; 32; 118; 224; 111; 32].

Definition INDEX_FAILED : jsstring :=
  [75; 104; 244; 110; 103; 32; 116; 104; 7875; 32; 108; 7853; 112; 32; 99;
   104; 7881; 32; 109; 7909; 99; 32; 116; 224; 105; 32; 108; 105; 7879; 117;
   46].

Definition ERROR_OCCURRED : jsstring :=
  [67; 243; 32; 108; 7895; 105; 32; 120; 7843; 121; 32; 114; 97].

(** [handleFilePick]; [None] stands for [event.target.files] being null. *)
Definition handleFilePick (files : option (list File)) (ms : ManagerState)
  : ManagerState :=
  match files with
  | None => ms
  | Some picked => setSelectedFiles (fun _ => picked) (setError None ms)
  end.

(** [handleRemoveFile] *)
Definition handleRemoveFile (fileName : jsstring) (ms : ManagerState)
  : ManagerState :=
  setSelectedFiles
    (List.filter (fun file => negb (bool_decide (f_name file = fileName)))) ms.

(** What the handler of the manager does to the outside: the call of
    [onIndexDocuments] and the toast. *)
Inductive ManagerEffect :=
| IndexRequested (files : list File)
| ToastShown (title description : jsstring) (destructive : bool).

Section ManagerIndex.
(** [new Date(timestamp).toLocaleString()] *)
Variable toLocaleString : jsstring -> jsstring.
(** The state of the parent and the [onIndexDocuments] prop, run to
    completion. *)
Context {Parent : Type}.
Variable onIndexDocuments :
  list File -> Parent -> Parent * (Thrown + IndexDocumentsResponse * jsstring).

(** [formatTimestamp] *)
Definition formatTimestamp (timestamp : option jsstring) : jsstring :=
  match timestamp with
  | Some (c :: s) => toLocaleString (c :: s)
  | _ => []
  end.

(** [handleIndexDocuments] of the document manager. *)
Definition manager_handleIndexDocuments (ms : ManagerState) (parent : Parent)
  : Parent * ManagerState * list ManagerEffect :=
  if (length (selectedFiles ms) =? 0)%nat
  then (parent, setError (Some NO_FILE_SELECTED) ms, [])
  else
    let indexedCount := length (selectedFiles ms) in
    match onIndexDocuments (selectedFiles ms) parent with
    | (parent', inr (response, completedAt)) =>
        (parent', setSelectedFiles (fun _ => []) ms,
         [IndexRequested (selectedFiles ms);
          ToastShown INDEX_SUCCEEDED
            (default (INDEXED_PREFIX ++ number_to_string (N.of_nat indexedCount)
                      ++ INDEXED_INFIX ++ formatTimestamp (Some completedAt)
                      ++ lit ".")
                     (ir_message response))
            false])
    | (parent', inl err) =>
        let message :=
          match err with ErrorObject msg => msg | OtherValue => INDEX_FAILED end in
        (parent', setError (Some message) ms,
         [IndexRequested (selectedFiles ms);
          ToastShown ERROR_OCCURRED message true])
    end.
End ManagerIndex.

(** ** Conversation registry ([Dashboard.tsx]) *)

Definition setConversations (f : list Conversation -> list Conversation)
    (st : DashboardState) : DashboardState :=
  {| isIndexing := isIndexing st; isReady := isReady st; documents := documents st;
     lastIndexedAt := lastIndexedAt st; lastMessage := lastMessage st;
     conversations := f (conversations st);
     activeConversationId := activeConversationId st |}.

Definition setActiveConversationId (v : jsstring) (st : DashboardState)
  : DashboardState :=
  {| isIndexing := isIndexing st; isReady := isReady st; documents := documents st;
     lastIndexedAt := lastIndexedAt st; lastMessage := lastMessage st;
     conversations := conversations st;
     activeConversationId := v |}.

Definition defaultConversation : Conversation :=
  {| c_id := lit "1"; c_title := lit "New Chat"; c_model := lit "Flash";
     c_timestamp := lit "09:49 PM" |}.

(** [handleNewConversation]; [now] is [Date.now().toString()] and [time] the
    result of [toLocaleTimeString]. *)
Definition handleNewConversation (now time : jsstring) (st : DashboardState)
  : DashboardState :=
  let newConversation :=
    {| c_id := now; c_title := lit "New Chat"; c_model := lit "Flash";
       c_timestamp := time |} in
  setActiveConversationId (c_id newConversation)
    (setConversations (fun prev => newConversation :: prev) st).

(** [handleSelectConversation] *)
Definition handleSelectConversation (id : jsstring) (st : DashboardState)
  : DashboardState :=
  setActiveConversationId id st.

(** What the user does in the sidebar. *)
Inductive RegistryEvent :=
| Created (now time : jsstring)
| Selected (id : jsstring).

Section ConversationRegistry.
(** [JSON.parse(text)], read as the conversation list the text encodes; it
    throws on a text that is not JSON. *)
Variable JSON_parse : jsstring -> Thrown + list Conversation.
(** [JSON.stringify(v)] *)
Variable JSON_stringify : jsvalue -> jsstring.

(** The mount effect that restores the conversations. A stored text that
    does not parse is logged and nothing is set; without a stored text the
    default conversation is created. *)
Definition mount_conversations (window : option (gmap jsstring jsstring))
    (st : DashboardState) : DashboardState :=
  match window with
  | None => st
  | Some localStorage =>
      match localStorage !! CONVERSATION_STORAGE_KEY with
      | Some (c :: s) =>
          match JSON_parse (c :: s) with
          | inr parsed =>
              let st1 := setConversations (fun _ => parsed) st in
              match parsed with
              | first :: _ => setActiveConversationId (c_id first) st1
              | [] => st1
              end
          | inl _ => st
          end
      | _ =>
          setActiveConversationId (c_id defaultConversation)
            (setConversations (fun _ => [defaultConversation]) st)
      end
  end.

(** The dashboard after its first two commits: the mount effect has run on
    the initial state, and the persistence effect has run on the list it
    set (on the initial, empty list the effect writes nothing). *)
Definition registry_start (window : option (gmap jsstring jsstring))
  : DashboardState * option (gmap jsstring jsstring) :=
  let st := mount_conversations window initialDashboard in
  (st, persist_conversations JSON_stringify window (conversations st)).

(** An event of the sidebar, followed by the persistence effect when the
    list has changed. *)
Definition registry_step
    (cfg : DashboardState * option (gmap jsstring jsstring)) (ev : RegistryEvent)
  : DashboardState * option (gmap jsstring jsstring) :=
  match ev with
  | Created now time =>
      let st := handleNewConversation now time (fst cfg) in
      (st, persist_conversations JSON_stringify (snd cfg) (conversations st))
  | Selected id => (handleSelectConversation id (fst cfg), snd cfg)
  end.

Definition registry_run (window : option (gmap jsstring jsstring))
    (evs : list RegistryEvent)
  : DashboardState * option (gmap jsstring jsstring) :=
  fold_left registry_step evs (registry_start window).
End ConversationRegistry.

(** The number of conversations created by a sequence of events. *)
Definition created_count (evs : list RegistryEvent) : nat :=
  length (List.filter (fun ev => match ev with Created _ _ => true | _ => false end)
                      evs).

(** *** The documents at start-up *)

Section DashboardStart.
(** [JSON.parse(text)], read as the document list the text encodes; it
    throws on a text that is not JSON. *)
Variable JSON_parse : jsstring -> Thrown + list IndexedDocument.
(** [JSON.stringify(v)] *)
Variable JSON_stringify : jsvalue -> jsstring.

(** The mount effect that restores the documents and the last status
    message. Both are read in one [try] block: when the document text does
    not parse, the error is logged and the message is not looked at. *)
Definition mount_stored_documents (window : option (gmap jsstring jsstring))
    (st : DashboardState) : DashboardState :=
  match window with
  | None => st
  | Some localStorage =>
      match localStorage !! DOCUMENT_STORAGE_KEY with
      | Some (c :: s) =>
          match JSON_parse (c :: s) with
          | inr parsed => mount_lastMessage window (mount_documents parsed st)
          | inl _ => st
          end
      | _ => mount_lastMessage window st
      end
  end.

(** The stored document text, if there is one, parses. *)
Definition documents_readable (localStorage : gmap jsstring jsstring) : Prop :=
  match localStorage !! DOCUMENT_STORAGE_KEY with
  | Some (c :: s) => exists parsed, JSON_parse (c :: s) = inr parsed
  | _ => True
  end.

(** The two persistence effects of the document tracker, as they run after
    a commit. An effect runs again only when its dependency has changed; a
    run on an unchanged dependency would write what the storage holds
    already, so both are taken to run at every commit. *)
Definition commit_documents (window : option (gmap jsstring jsstring))
    (st : DashboardState) : option (gmap jsstring jsstring) :=
  persist_lastMessage (persist_documents JSON_stringify window (documents st))
    (lastMessage st).

(** The dashboard after its first two commits: the effects run on the
    initial state, then on the state the mount effect has set. *)
Definition start_documents (window : option (gmap jsstring jsstring))
  : DashboardState * option (gmap jsstring jsstring) :=
  let st := mount_stored_documents window initialDashboard in
  (effect_latestIndexedAt st,
   commit_documents (commit_documents window initialDashboard) st).
End DashboardStart.

(** The expression [re] matches at no position of [s]. *)
Fixpoint free (re : jsstring -> option nat) (s : jsstring) : Prop :=
  match s with
  | [] => True
  | _ :: s' => re s = None /\ free re s'
  end.

(** No event of the sequence is a mount. *)
Definition after_mount (evs : list IndexEvent) : Prop :=
  Forall (fun ev => match ev with Mounted _ => False | _ => True end) evs.

(** * Properties *)

(** ** Trimming *)

Lemma trimStart_app_blank l s : blank l = true -> trimStart (l ++ s) = trimStart s.
Proof.
  induction l as [|c l IH]; simpl; [reflexivity|].
  intros H. apply andb_prop in H as [Hc Hl]. rewrite Hc. auto.
Qed.

Lemma trimStart_blank s : blank s = true <-> trimStart s = [].
Proof.
  induction s as [|c s IH]; simpl; [tauto|].
  destruct (is_ws c); simpl; [exact IH|]. split; discriminate.
Qed.

Lemma trimStart_fixed_app s r : s <> [] -> trimStart s = s -> trimStart (s ++ r) = s ++ r.
Proof.
  destruct s as [|c s]; [congruence|]. simpl. intros _.
  destruct (is_ws c) eqn:E; [|reflexivity].
  intros H. exfalso.
  assert (Hl : (length (trimStart s) <= length s)%nat).
  { clear. induction s as [|x s IH]; simpl; [lia|]. destruct (is_ws x); simpl; lia. }
  rewrite H in Hl. simpl in Hl. lia.
Qed.

Lemma blank_rev s : blank (rev s) = blank s.
Proof.
  unfold blank. induction s as [|c s IH]; simpl; [reflexivity|].
  rewrite forallb_app, IH. simpl. rewrite andb_true_r. apply andb_comm.
Qed.

Lemma trim_spec l m r :
  blank l = true -> blank r = true -> tight m -> trim (l ++ m ++ r) = m.
Proof.
  intros Hl Hr [Hm Hm']. unfold trim, trimEnd.
  rewrite trimStart_app_blank by assumption.
  destruct m as [|c m].
  - simpl. apply trimStart_blank in Hr. rewrite Hr. simpl. reflexivity.
  - rewrite trimStart_fixed_app by (assumption || discriminate).
    rewrite rev_app_distr. rewrite trimStart_app_blank.
    + rewrite Hm'. apply rev_involutive.
    + rewrite blank_rev. exact Hr.
Qed.

Lemma trimStart_split s :
  exists l, s = l ++ trimStart s /\ blank l = true
            /\ trimStart (trimStart s) = trimStart s.
Proof.
  induction s as [|c s (l & Hs & Hl & Hi)]; simpl.
  - exists []. auto.
  - destruct (is_ws c) eqn:E.
    + exists (c :: l). simpl. rewrite E, Hl. split; [congruence|auto].
    + exists []. simpl. rewrite E. auto.
Qed.

Lemma trim_split s :
  exists l r, s = l ++ trim s ++ r /\ blank l = true /\ blank r = true /\ tight (trim s).
Proof.
  destruct (trimStart_split s) as (l & Hs & Hl & Hi).
  destruct (trimStart_split (rev (trimStart s))) as (r' & Hr & Hr' & Hi').
  exists l, (rev r'). unfold trim, trimEnd.
  assert (E : trimStart s = rev (trimStart (rev (trimStart s))) ++ rev r').
  { rewrite <- rev_app_distr, <- Hr. symmetry. apply rev_involutive. }
  split; [congruence|]. split; [assumption|].
  split; [rewrite blank_rev; exact Hr'|].
  split; [|rewrite rev_involutive; exact Hi'].
  destruct (rev (trimStart (rev (trimStart s)))) as [|c u] eqn:Eu; [reflexivity|].
  rewrite E in Hi. simpl in *.
  destruct (is_ws c) eqn:Ec; [|reflexivity].
  exfalso.
  assert (Hlen : forall x, (length (trimStart x) <= length x)%nat).
  { clear. induction x as [|y x IH]; simpl; [lia|]. destruct (is_ws y); simpl; lia. }
  specialize (Hlen (u ++ rev r')). rewrite Hi in Hlen. simpl in Hlen. lia.
Qed.

Lemma trim_tight s : tight s -> trim s = s.
Proof.
  intros H. rewrite <- (trim_spec [] s [] eq_refl eq_refl H) at 2.
  simpl. rewrite app_nil_r. reflexivity.
Qed.

Lemma trim_idempotent s : trim (trim s) = trim s.
Proof.
  destruct (trim_split s) as (l & r & _ & _ & _ & Ht). apply trim_tight, Ht.
Qed.

Lemma blank_app a b : blank (a ++ b) = blank a && blank b.
Proof. apply forallb_app. Qed.

Lemma trim_blank s : blank s = true <-> trim s = [].
Proof.
  destruct (trim_split s) as (l & r & Hs & Hl & Hr & Ht).
  split.
  - intros H. rewrite Hs in H. rewrite !blank_app in H.
    apply andb_prop in H as [_ H]. apply andb_prop in H as [H _].
    destruct Ht as [Ht _]. apply trimStart_blank in H. congruence.
  - intros H. rewrite Hs, H. simpl. rewrite blank_app, Hl, Hr. reflexivity.
Qed.

(** ** Global scans *)

Lemma scan_cons re c s' :
  scan re (c :: s') =
  match re (c :: s') with
  | Some (S k) => Matched (c :: take k s') :: scan re (drop k s')
  | _ => Unmatched c :: scan re s'
  end.
Proof.
  simp scan. destruct (re (c :: s')) as [[|k]|]; simpl; reflexivity.
Qed.

(** Induction along the positions a scan visits. *)
Lemma scan_ind' (re : jsstring -> option nat) (P : jsstring -> Prop) :
  P [] ->
  (forall c s' k, re (c :: s') = Some (S k) -> P (drop k s') -> P (c :: s')) ->
  (forall c s', re (c :: s') = None \/ re (c :: s') = Some O -> P s' -> P (c :: s')) ->
  forall s, P s.
Proof.
  intros Hnil Hm Hu s.
  assert (H : forall n s, (length s <= n)%nat -> P s).
  { clear s. induction n as [|n IH]; intros [|c s'] Hlen; simpl in Hlen;
      try exact Hnil; try lia.
    destruct (re (c :: s')) as [[|k]|] eqn:E.
    - apply Hu; [tauto|]. apply IH. lia.
    - apply (Hm _ _ k E). apply IH. rewrite length_drop. lia.
    - apply Hu; [tauto|]. apply IH. lia. }
  apply (H (length s)). lia.
Qed.

Lemma scan_unmatched re c s' :
  re (c :: s') = None -> scan re (c :: s') = Unmatched c :: scan re s'.
Proof. intros H. rewrite scan_cons, H. reflexivity. Qed.

Lemma scan_matched re c s' k :
  re (c :: s') = Some (S k) ->
  scan re (c :: s') = Matched (c :: take k s') :: scan re (drop k s').
Proof. intros H. rewrite scan_cons, H. reflexivity. Qed.

Lemma replace_unmatched re by_ c s' :
  re (c :: s') = None -> replace re by_ (c :: s') = c :: replace re by_ s'.
Proof. intros H. unfold replace. rewrite scan_unmatched by assumption. reflexivity. Qed.

Lemma replace_matched re by_ c s' k :
  re (c :: s') = Some (S k) ->
  replace re by_ (c :: s') = by_ ++ replace re by_ (drop k s').
Proof. intros H. unfold replace. rewrite (scan_matched _ _ _ _ H). reflexivity. Qed.

Lemma matchAll_unmatched re c s' :
  re (c :: s') = None -> matchAll re (c :: s') = matchAll re s'.
Proof. intros H. unfold matchAll. rewrite scan_unmatched by assumption. reflexivity. Qed.

Lemma matchAll_matched re c s' k :
  re (c :: s') = Some (S k) ->
  matchAll re (c :: s') = (c :: take k s') :: matchAll re (drop k s').
Proof. intros H. unfold matchAll. rewrite (scan_matched _ _ _ _ H). reflexivity. Qed.

(** Every code unit of the result of a replacement comes from the subject or
    from the replacement text. *)
Lemma replace_elem re by_ s x :
  (forall t, re t <> Some O) ->
  In x (replace re by_ s) -> In x s \/ In x by_.
Proof.
  intros Hre. induction s as [|c s' k E IH|c s' E IH] using (scan_ind' re).
  - unfold replace. simp scan. simpl. tauto.
  - rewrite (replace_matched _ _ _ _ _ E). rewrite in_app_iff.
    intros [H|H]; [tauto|]. apply IH in H as [H|H]; [|tauto].
    left. right. rewrite <- (take_drop k s'). apply in_or_app. tauto.
  - destruct E as [E|E]; [|destruct (Hre _ E)].
    rewrite (replace_unmatched _ _ _ _ E). simpl.
    intros [H|H]; [tauto|]. apply IH in H. tauto.
Qed.

(** *** The two expressions *)

Example bracket_in_bracket : matchAll re_bracket (lit "x[[a]b]") = [lit "[[a]"].
Proof. vm_compute. reflexivity. Qed.

Example empty_brackets : matchAll re_bracket (lit "[] [ x") = [].
Proof. vm_compute. reflexivity. Qed.

Example four_newlines :
  replace re_newlines [NEWLINE; NEWLINE] [97; 10; 10; 10; 10; 98; 10; 10; 99]
  = [97; 10; 10; 98; 10; 10; 99].
Proof. vm_compute. reflexivity. Qed.

Lemma run_length_all p s : forallb p s = true -> run_length p s = length s.
Proof.
  induction s as [|c s IH]; simpl; [reflexivity|].
  intros H. apply andb_prop in H as [Hc Hs]. rewrite Hc. auto.
Qed.

Lemma run_length_stop p s :
  drop (run_length p s) s = [] /\ forallb p s = true
  \/ exists d t, drop (run_length p s) s = d :: t /\ p d = false.
Proof.
  induction s as [|c s IH]; simpl; [left; auto|].
  destruct (p c) eqn:E; simpl.
  - destruct IH as [[H1 H2]|H]; [left; auto|right; exact H].
  - right. eauto.
Qed.

Lemma run_length_take p s : forallb p (take (run_length p s) s) = true.
Proof.
  induction s as [|c s IH]; simpl; [reflexivity|].
  destruct (p c) eqn:E; simpl; [rewrite E; exact IH|reflexivity].
Qed.

Lemma re_bracket_other c s' : c <> LBRACKET -> re_bracket (c :: s') = None.
Proof. intros H. simpl. apply N.eqb_neq in H. rewrite H. reflexivity. Qed.

Lemma not_close_false d : not_close d = false -> d = RBRACKET.
Proof. unfold not_close. intros H. apply negb_false_iff in H. apply N.eqb_eq, H. Qed.

(** When the expression matches, the match is an opening bracket, a
    non-empty run without closing bracket, and the closing bracket. *)
Lemma re_bracket_some s n :
  re_bracket s = Some n ->
  exists s' k t, s = LBRACKET :: s' /\ n = S (S (S k))
    /\ run_length not_close s' = S k /\ drop (S k) s' = RBRACKET :: t.
Proof.
  destruct s as [|c s']; simpl; [discriminate|].
  destruct (c =? LBRACKET) eqn:Ec; [|discriminate].
  apply N.eqb_eq in Ec. subst c.
  destruct (run_length not_close s') as [|k] eqn:En; [discriminate|].
  destruct (drop (S k) s') as [|d t] eqn:Ed; [discriminate|].
  destruct (d =? RBRACKET) eqn:E; [|discriminate].
  apply N.eqb_eq in E. subst d. intros [= <-]. eauto 8.
Qed.

Lemma re_bracket_nonzero t : re_bracket t <> Some O.
Proof. intros H. apply re_bracket_some in H as (? & ? & ? & _ & ? & _). discriminate. Qed.

(** An opening bracket starts no match exactly when nothing follows it, or
    a closing bracket follows at once, or none follows at all. *)
Lemma re_bracket_none u :
  re_bracket (LBRACKET :: u) = None
  <-> u = [] \/ (exists t, u = RBRACKET :: t) \/ forallb not_close u = true.
Proof.
  unfold re_bracket. rewrite N.eqb_refl. cbv zeta. split.
  - intros H. destruct (run_length_stop not_close u) as [[Hd Ha]|(d & t & Hd & Hp)];
      [tauto|].
    destruct (run_length not_close u) as [|k] eqn:En.
    + rewrite drop_0 in Hd. subst u. apply not_close_false in Hp. subst d. eauto.
    + rewrite Hd in H. apply not_close_false in Hp. subst d.
      rewrite N.eqb_refl in H. discriminate.
  - intros [->|[(t & ->)|H]]; try reflexivity.
    rewrite (run_length_all _ _ H). destruct (length u) as [|k] eqn:E; [reflexivity|].
    rewrite drop_ge by lia. reflexivity.
Qed.

Lemma re_newlines_other c s' : c <> NEWLINE -> re_newlines (c :: s') = None.
Proof.
  intros H. unfold re_newlines. simpl. unfold is_newline at 1.
  apply N.eqb_neq in H. rewrite H. reflexivity.
Qed.

Lemma re_newlines_some s n :
  re_newlines s = Some n ->
  exists k s', n = S k /\ s = NEWLINE :: s' /\ forallb is_newline (take k s') = true.
Proof.
  unfold re_newlines. destruct (3 <=? run_length is_newline s)%nat eqn:E; [|discriminate].
  intros [= <-]. apply Nat.leb_le in E.
  destruct s as [|c s']; simpl in *; [lia|].
  destruct (is_newline c) eqn:Ec; [|lia].
  apply N.eqb_eq in Ec. subst c. exists (run_length is_newline s'), s'.
  split; [reflexivity|]. split; [reflexivity|]. apply run_length_take.
Qed.

Lemma re_newlines_nonzero t : re_newlines t <> Some O.
Proof. intros H. apply re_newlines_some in H as (? & ? & ? & _). discriminate. Qed.

(** *** Strings without a bracketed span *)

Lemma mfree_scan s : mfree s -> scan re_bracket s = List.map Unmatched s.
Proof.
  induction s as [|c s IH]; simpl; [intros _; simp scan; reflexivity|].
  intros [E H]. rewrite (scan_unmatched _ _ _ E), IH by assumption. reflexivity.
Qed.

Lemma mfree_matchAll s : mfree s <-> matchAll re_bracket s = [].
Proof.
  split.
  - intros H. unfold matchAll. rewrite (mfree_scan _ H).
    clear H. induction s as [|c s IH]; simpl; [reflexivity|exact IH].
  - induction s as [|c s' k E IH|c s' E IH] using (scan_ind' re_bracket).
    + intros _. exact I.
    + rewrite (matchAll_matched _ _ _ _ E). discriminate.
    + destruct E as [E|E]; [|destruct (re_bracket_nonzero _ E)].
      rewrite (matchAll_unmatched _ _ _ E). intros H. split; auto.
Qed.

Lemma mfree_replace by_ s : mfree s -> replace re_bracket by_ s = s.
Proof.
  intros H. unfold replace. rewrite (mfree_scan _ H). clear H.
  induction s as [|c s IH]; simpl; [reflexivity|]. rewrite IH. reflexivity.
Qed.

Lemma mfree_app_r a b : mfree (a ++ b) -> mfree b.
Proof. induction a as [|c a IH]; simpl; [auto|]. intros [_ H]. auto. Qed.

Lemma mfree_drop k s : mfree s -> mfree (drop k s).
Proof. rewrite <- (take_drop k s) at 1. apply mfree_app_r. Qed.

Lemma forallb_app_l {A} (p : A -> bool) a b :
  forallb p (a ++ b) = true -> forallb p a = true.
Proof. rewrite forallb_app. intros H. apply andb_prop in H. tauto. Qed.

Lemma mfree_app_l a b : mfree (a ++ b) -> mfree a.
Proof.
  induction a as [|c a IH]; simpl; [auto|].
  intros [E H]. split; [|auto].
  destruct (N.eq_dec c LBRACKET) as [->|Hc]; [|apply re_bracket_other, Hc].
  apply re_bracket_none. apply re_bracket_none in E as [E|[(t & E)|E]].
  - apply app_eq_nil in E. tauto.
  - destruct a as [|d a]; [tauto|]. simpl in E. injection E as -> _. eauto.
  - right. right. eapply forallb_app_l, E.
Qed.

Lemma forallb_replace re by_ (p : N -> bool) s :
  (forall t, re t <> Some O) ->
  forallb p s = true -> forallb p by_ = true -> forallb p (replace re by_ s) = true.
Proof.
  intros Hre Hs Hb. apply forallb_forall. intros x Hx.
  apply (replace_elem _ _ _ _ Hre) in Hx as [Hx|Hx].
  - rewrite forallb_forall in Hs. auto.
  - rewrite forallb_forall in Hb. auto.
Qed.

(** Removing the bracketed spans leaves none behind. *)
Lemma remove_mfree s : mfree (replace re_bracket [] s).
Proof.
  induction s as [|c s' k E IH|c s' E IH] using (scan_ind' re_bracket).
  - unfold replace. simp scan. exact I.
  - rewrite (replace_matched _ _ _ _ _ E). exact IH.
  - destruct E as [E|E]; [|destruct (re_bracket_nonzero _ E)].
    rewrite (replace_unmatched _ _ _ _ E). split; [|exact IH].
    destruct (N.eq_dec c LBRACKET) as [->|Hc]; [|apply re_bracket_other, Hc].
    apply re_bracket_none. apply re_bracket_none in E as [->|[(t & ->)|E]].
    + left. unfold replace. simp scan. reflexivity.
    + right. left. rewrite replace_unmatched by (apply re_bracket_other; discriminate).
      eauto.
    + right. right. apply forallb_replace; auto using re_bracket_nonzero.
Qed.

(** Collapsing newline runs creates no bracketed span. *)
Lemma collapse_mfree t :
  mfree t -> mfree (replace re_newlines [NEWLINE; NEWLINE] t).
Proof.
  induction t as [|c s' k E IH|c s' E IH] using (scan_ind' re_newlines).
  - intros _. unfold replace. simp scan. exact I.
  - intros [_ H]. rewrite (replace_matched _ _ _ _ _ E). simpl.
    repeat split; try (apply re_bracket_other; discriminate).
    apply IH, mfree_drop, H.
  - destruct E as [E|E]; [|destruct (re_newlines_nonzero _ E)].
    intros [Hc H]. rewrite (replace_unmatched _ _ _ _ E). split; [|auto].
    destruct (N.eq_dec c LBRACKET) as [->|Hne]; [|apply re_bracket_other, Hne].
    apply re_bracket_none. apply re_bracket_none in Hc as [->|[(u & ->)|Hc]].
    + left. unfold replace. simp scan. reflexivity.
    + right. left. rewrite replace_unmatched by (apply re_newlines_other; discriminate).
      eauto.
    + right. right. apply forallb_replace; auto using re_newlines_nonzero.
Qed.

Lemma trim_mfree s : mfree s -> mfree (trim s).
Proof.
  destruct (trim_split s) as (l & r & Hs & _). intros H. rewrite Hs in H.
  eapply mfree_app_l, mfree_app_r, H.
Qed.

(** *** White space around a string does not change its spans *)

Lemma ws_not_bracket c : is_ws c = true -> c <> LBRACKET /\ c <> RBRACKET.
Proof. intros H. split; intros ->; vm_compute in H; discriminate. Qed.

Lemma blank_not_close r : blank r = true -> forallb not_close r = true.
Proof.
  unfold blank. rewrite !forallb_forall. intros H x Hx.
  destruct (ws_not_bracket x (H x Hx)) as [_ Hc].
  unfold not_close. apply negb_true_iff, N.eqb_neq, Hc.
Qed.

Lemma scan_blank_l l m :
  blank l = true ->
  scan re_bracket (l ++ m) = List.map Unmatched l ++ scan re_bracket m.
Proof.
  induction l as [|c l IH]; simpl; [reflexivity|].
  intros H. apply andb_prop in H as [Hc Hl].
  rewrite scan_unmatched by (apply re_bracket_other, ws_not_bracket, Hc).
  rewrite IH by assumption. reflexivity.
Qed.

Lemma run_length_app_stop p s r d t :
  drop (run_length p s) s = d :: t -> run_length p (s ++ r) = run_length p s.
Proof.
  induction s as [|c s IH]; simpl; [discriminate|].
  destruct (p c); simpl; [|reflexivity]. intros H. f_equal. auto.
Qed.

Lemma drop_cons_length {A} k (s : list A) d t : drop k s = d :: t -> (k < length s)%nat.
Proof.
  intros H. destruct (Nat.lt_ge_cases k (length s)) as [Hk|Hk]; [exact Hk|].
  rewrite drop_ge in H by lia. discriminate.
Qed.

Lemma re_bracket_app s r n : re_bracket s = Some n -> re_bracket (s ++ r) = Some n.
Proof.
  intros H. apply re_bracket_some in H as (s' & k & t & -> & -> & Hn & Hd).
  pose proof (drop_cons_length _ _ _ _ Hd) as Hlen.
  change ((LBRACKET :: s') ++ r) with (LBRACKET :: (s' ++ r)).
  unfold re_bracket. rewrite N.eqb_refl. cbv zeta.
  rewrite (run_length_app_stop not_close s' r RBRACKET t) by (rewrite Hn; exact Hd).
  rewrite Hn. cbv iota. rewrite drop_app_le by lia. rewrite Hd. reflexivity.
Qed.

Lemma re_bracket_app_none s r :
  s <> [] -> blank r = true -> re_bracket s = None -> re_bracket (s ++ r) = None.
Proof.
  destruct s as [|c s']; [congruence|]. intros _ Hr E.
  destruct (N.eq_dec c LBRACKET) as [->|Hc]; [|apply re_bracket_other, Hc].
  apply blank_not_close in Hr.
  simpl. apply re_bracket_none. apply re_bracket_none in E as [->|[(t & ->)|E]].
  - simpl. tauto.
  - simpl. eauto.
  - right. right. rewrite forallb_app, E, Hr. reflexivity.
Qed.

Lemma scan_blank_r m r :
  blank r = true ->
  scan re_bracket (m ++ r) = scan re_bracket m ++ List.map Unmatched r.
Proof.
  intros Hr. induction m as [|c s' k E IH|c s' E IH] using (scan_ind' re_bracket).
  - simp scan. simpl. rewrite <- (app_nil_r r) at 1.
    rewrite scan_blank_l by assumption. simp scan. apply app_nil_r.
  - pose proof (re_bracket_app _ r _ E) as E'. simpl in E'.
    simpl. rewrite (scan_matched _ _ _ _ E), (scan_matched _ _ _ _ E').
    apply re_bracket_some in E as (u & j & t & [= -> ->] & [= ->] & Hn & Hd).
    pose proof (drop_cons_length _ _ _ _ Hd) as Hlen.
    rewrite take_app_le, drop_app_le by lia. rewrite IH. reflexivity.
  - destruct E as [E|E]; [|destruct (re_bracket_nonzero _ E)].
    pose proof (re_bracket_app_none (c :: s') r ltac:(discriminate) Hr E) as E'.
    simpl in E'. simpl. rewrite (scan_unmatched _ _ _ E), (scan_unmatched _ _ _ E').
    rewrite IH. reflexivity.
Qed.

Lemma scan_padded l m r :
  blank l = true -> blank r = true ->
  scan re_bracket (l ++ m ++ r)
  = List.map Unmatched l ++ scan re_bracket m ++ List.map Unmatched r.
Proof.
  intros Hl Hr. rewrite scan_blank_l, scan_blank_r by assumption. reflexivity.
Qed.

Lemma omap_unmatched l :
  omap (fun g => match g with Matched m => Some m | Unmatched _ => None end)
       (List.map Unmatched l) = [].
Proof. induction l as [|c l IH]; simpl; [reflexivity|exact IH]. Qed.

Lemma concat_unmatched by_ l :
  concat (List.map (fun g => match g with Matched _ => by_ | Unmatched c => [c] end)
                   (List.map Unmatched l)) = l.
Proof. induction l as [|c l IH]; simpl; [reflexivity|]. rewrite IH. reflexivity. Qed.

Lemma matchAll_padded l m r :
  blank l = true -> blank r = true ->
  matchAll re_bracket (l ++ m ++ r) = matchAll re_bracket m.
Proof.
  intros Hl Hr. unfold matchAll. rewrite scan_padded by assumption.
  rewrite !omap_app, !omap_unmatched. simpl. apply app_nil_r.
Qed.

Lemma remove_padded l m r :
  blank l = true -> blank r = true ->
  replace re_bracket [] (l ++ m ++ r) = l ++ replace re_bracket [] m ++ r.
Proof.
  intros Hl Hr. unfold replace. rewrite scan_padded by assumption.
  rewrite !List.map_app, !concat_app, !concat_unmatched. reflexivity.
Qed.

(** Collapsing newline runs keeps a string blank or not blank. *)
Lemma collapse_blank x :
  blank (replace re_newlines [NEWLINE; NEWLINE] x) = blank x.
Proof.
  induction x as [|c s' k E IH|c s' E IH] using (scan_ind' re_newlines).
  - unfold replace. simp scan. reflexivity.
  - rewrite (replace_matched _ _ _ _ _ E). simpl. rewrite IH.
    apply re_newlines_some in E as (j & u & [= <-] & [= -> <-] & Hn).
    rewrite <- (take_drop k s') at 2. rewrite blank_app.
    replace (blank (take k s')) with true; [reflexivity|].
    symmetry. unfold blank. rewrite forallb_forall in Hn |- *.
    intros y Hy. apply Hn in Hy. apply N.eqb_eq in Hy. subst y. reflexivity.
  - destruct E as [E|E]; [|destruct (re_newlines_nonzero _ E)].
    rewrite (replace_unmatched _ _ _ _ E). simpl. rewrite IH. reflexivity.
Qed.

Lemma length_zero_nil {A} (l : list A) : (0 <? length l)%nat = false <-> l = [].
Proof.
  destruct l; simpl; split; intros H; try reflexivity; try discriminate.
Qed.

(** ** The answer parser *)

Lemma parseAnswer_mfree s :
  mfree s -> parseAnswer s = {| pa_content := trim s; pa_references := [] |}.
Proof.
  intros H. apply mfree_matchAll in H. unfold parseAnswer. rewrite H. simpl.
  destruct (0 <? length (trim s))%nat; reflexivity.
Qed.

Lemma parseAnswer_stripped s c0 :
  c0 = trim (replace re_newlines [NEWLINE; NEWLINE] (replace re_bracket [] s)) ->
  parseAnswer c0 = {| pa_content := c0; pa_references := [] |}.
Proof.
  intros ->. rewrite parseAnswer_mfree.
  - rewrite trim_idempotent. reflexivity.
  - apply trim_mfree, collapse_mfree, remove_mfree.
Qed.

Lemma stripped_nil s :
  trim (replace re_newlines [NEWLINE; NEWLINE] (replace re_bracket [] s)) = []
  <-> blank (replace re_bracket [] s) = true.
Proof. rewrite <- trim_blank, collapse_blank. tauto. Qed.

(** C7 (amended): parsing the content the parser produced yields that content
    again. The second parse has no references, except when the answer
    consisted of bracketed spans and white space only: the content is then
    the trimmed answer, brackets included, and the second parse finds the
    references of the first. *)
Theorem C7_parse_content_stable answer :
  parseAnswer (pa_content (parseAnswer answer))
  = {| pa_content := pa_content (parseAnswer answer);
       pa_references := if only_spans answer
                        then pa_references (parseAnswer answer) else [] |}.
Proof.
  unfold only_spans.
  destruct (matchAll re_bracket answer) as [|m ms] eqn:Em.
  - apply mfree_matchAll in Em. rewrite (parseAnswer_mfree _ Em). simpl.
    rewrite parseAnswer_mfree by (apply trim_mfree, Em).
    rewrite trim_idempotent. reflexivity.
  - set (c0 := trim (replace re_newlines [NEWLINE; NEWLINE]
                       (replace re_bracket [] answer))).
    assert (Ep : parseAnswer answer
                 = {| pa_content := if (0 <? length c0)%nat then c0 else trim answer;
                      pa_references := fold_left push_reference (m :: ms) [] |}).
    { unfold parseAnswer. rewrite Em. reflexivity. }
    rewrite Ep. cbn [pa_content pa_references].
    destruct (0 <? length c0)%nat eqn:E0.
    + replace (blank (replace re_bracket [] answer)) with false.
      * apply (parseAnswer_stripped answer). reflexivity.
      * symmetry. apply not_true_is_false. intros Hb. apply stripped_nil in Hb.
        fold c0 in Hb. rewrite Hb in E0. discriminate.
    + apply length_zero_nil in E0. pose proof E0 as Hb. unfold c0 in Hb.
      apply stripped_nil in Hb. rewrite Hb.
      destruct (trim_split answer) as (l & r & Hs & Hl & Hr & Ht).
      rewrite Hs in Em, Hb.
      rewrite matchAll_padded in Em by assumption.
      rewrite remove_padded in Hb by assumption.
      rewrite !blank_app in Hb. apply andb_prop in Hb as [_ Hb].
      apply andb_prop in Hb as [Hb _]. apply stripped_nil in Hb.
      unfold parseAnswer at 1. rewrite Em, Hb. simpl.
      rewrite (trim_tight _ Ht). reflexivity.
Qed.

(** C7 as stated fails: the content of the answer [[a]] is [[a]] itself, and
    parsing it again yields the reference [a], not the empty list. *)
Lemma C7_reparse_keeps_reference :
  pa_content (parseAnswer (lit "[a]")) = lit "[a]"
  /\ parseAnswer (pa_content (parseAnswer (lit "[a]")))
     <> {| pa_content := pa_content (parseAnswer (lit "[a]"));
           pa_references := [] |}.
Proof. split; [vm_compute; reflexivity|]. vm_compute. discriminate. Qed.

(** C2: the parse of the example answer, and the parse of any answer
    without a bracketed span. *)
Theorem C2_parse_example_and_plain :
  parseAnswer (lit "The rule is X [Doc A p.1] and Y [Doc A p.1] [Doc B p.2]")
  = {| pa_content := lit "The rule is X  and Y";
       pa_references := [lit "Doc A p.1"; lit "Doc B p.2"] |}
  /\ forall answer,
       matchAll re_bracket answer = [] ->
       parseAnswer answer = {| pa_content := trim answer; pa_references := [] |}.
Proof.
  split; [vm_compute; reflexivity|].
  intros answer H. apply parseAnswer_mfree, mfree_matchAll, H.
Qed.

Lemma C2_plain_witness :
  matchAll re_bracket (lit " no citation here ") = []
  /\ parseAnswer (lit " no citation here ")
     = {| pa_content := lit "no citation here"; pa_references := [] |}.
Proof.
  split; [vm_compute; reflexivity|].
  exact (proj2 C2_parse_example_and_plain (lit " no citation here ") eq_refl).
Defined.

(** ** Extracting the answer *)

Lemma string_with_text_truthy v : string_with_text v = true -> truthy v = true.
Proof.
  unfold string_with_text. destruct v; simpl; try discriminate.
  destruct s as [|c s]; [discriminate|reflexivity].
Qed.

Lemma structured_iff v : truthy v && is_type TObject v = is_structured v.
Proof. destruct v; simpl; try reflexivity; rewrite ?andb_false_r; reflexivity. Qed.

Lemma extractAnswer_refines stringify data :
  extractAnswer stringify data = extractAnswer_first_with_text stringify data.
Proof.
  unfold extractAnswer, extractAnswer_first_with_text, response_fields. simpl.
  destruct (string_with_text (qr_answer data)); [reflexivity|].
  destruct (string_with_text (qr_response data)); [reflexivity|].
  destruct (string_with_text (qr_result data)); [reflexivity|].
  destruct (string_with_text (qr_data data)) eqn:E.
  - rewrite (string_with_text_truthy _ E). reflexivity.
  - rewrite andb_false_r. rewrite structured_iff. reflexivity.
Qed.

(** ** The chat session *)

Lemma settle_messages_fresh aid content status refs ms :
  Forall (fun m => m_id m <> aid) ms ->
  settle_messages aid content status refs ms = ms.
Proof.
  unfold settle_messages.
  induction 1 as [|m ms Hm _ IH]; simpl; [reflexivity|].
  rewrite bool_decide_eq_false_2 by exact Hm. rewrite IH. reflexivity.
Qed.

Lemma settle_messages_pair d question content status refs ms :
  fresh_ids d {| message := []; messages := ms; isSending := false |} ->
  settle_messages (dr_assistantId d) content status refs
    (ms ++ [userMessage_of d question; pendingAssistant_of d])
  = ms ++ [userMessage_of d question;
           {| m_id := dr_assistantId d; m_role := assistant; m_content := content;
              m_status := status; m_createdAt := dr_createdAt d;
              m_references := Some refs |}].
Proof.
  intros [Hne Hfresh]. simpl in Hfresh. unfold settle_messages.
  rewrite List.map_app. fold (settle_messages (dr_assistantId d) content status refs ms).
  rewrite settle_messages_fresh by assumption. simpl.
  rewrite bool_decide_eq_false_2 by exact Hne.
  rewrite bool_decide_eq_true_2 by reflexivity. reflexivity.
Qed.

Lemma handleSend_begin_accepted ready d st payload :
  send_rejected ready st payload = false ->
  handleSend_begin ready d st payload
  = Some ({| message := [];
             messages := messages st ++ [userMessage_of d (question_of st payload);
                                         pendingAssistant_of d];
             isSending := true |}, question_of st payload).
Proof. intros H. unfold handleSend_begin. rewrite H. reflexivity. Qed.

(** The description of a failure is empty only for an [Error] whose message
    is empty. *)
Lemma description_empty_iff err : description_of err = [] <-> err = ErrorObject [].
Proof.
  destruct err as [msg|]; simpl.
  - split; [intros ->; reflexivity|intros [= ->]; reflexivity].
  - split; discriminate.
Qed.

(** The failure [queryDocuments] raises for a response that is not ok has a
    description. *)
Lemma description_of_status response err :
  fr_ok response = false ->
  queryDocuments (inr response) = inl err ->
  description_of err <> [].
Proof.
  unfold queryDocuments. intros ->. simpl. intros [= <-]. discriminate.
Qed.

(** C4: a send with an empty or white-space question, on a session that is
    not ready, or while another send is in flight changes nothing: the state
    (the message list with it) is the one before and no effect is issued,
    the remote query included. *)
Theorem C4_rejected_send_is_noop stringify ready d fetch st payload :
  blank (default (message st) payload) = true \/ ready = false \/ isSending st = true ->
  handleSend stringify ready d fetch st payload = (st, []).
Proof.
  intros H. unfold handleSend, handleSend_begin.
  replace (send_rejected ready st payload) with true; [reflexivity|].
  symmetry. unfold send_rejected, question_of.
  destruct H as [H | [-> | ->]].
  - apply trim_blank in H. rewrite H. reflexivity.
  - rewrite orb_true_r. reflexivity.
  - apply orb_true_r.
Qed.

Lemma C4_rejected_send_witness :
  blank (default (message (idle_chat "  ")) None) = true
  /\ handleSend (fun _ => []) true drawn_ex (fetch_answer "Paris") (idle_chat "  ") None
     = (idle_chat "  ", []).
Proof.
  split; [reflexivity|].
  apply (C4_rejected_send_is_noop (fun _ => []) true drawn_ex (fetch_answer "Paris")
           (idle_chat "  ") None).
  left. reflexivity.
Defined.

(** C3 as stated fails: the answer field [" Paris "] is the first non-empty
    value, but the extracted answer is ["Paris"]; and a field holding white
    space only is passed over although it is not empty. *)
Lemma C3_value_is_trimmed :
  extractAnswer (fun _ => []) (answer_only (lit " Paris ")) = lit "Paris"
  /\ extractAnswer_first_nonempty (fun _ => []) (answer_only (lit " Paris "))
     = lit " Paris "
  /\ extractAnswer (fun _ => [])
       {| qr_answer := JStr (lit " "); qr_response := JStr (lit "x");
          qr_result := JUndefined; qr_data := JUndefined |}
     <> extractAnswer_first_nonempty (fun _ => [])
          {| qr_answer := JStr (lit " "); qr_response := JStr (lit "x");
             qr_result := JUndefined; qr_data := JUndefined |}.
Proof.
  split; [vm_compute; reflexivity|]. split; [vm_compute; reflexivity|].
  vm_compute. discriminate.
Qed.

(** C3 (amended): the extracted answer is the trimmed text of the first
    field among answer, response, result and data that is a string with more
    than white space in it; failing that the serialized data when it is an
    object or an array; failing that the fixed fallback. An accepted send
    answered by [{"answer": "Paris"}] ends with the placeholder complete,
    its content ["Paris"] and no references. *)
Theorem C3_extracted_answer stringify :
  (forall data,
     extractAnswer stringify data = extractAnswer_first_with_text stringify data)
  /\ forall ready d fetch st payload,
       send_rejected ready st payload = false ->
       queryDocuments (fetch (question_of st payload))
       = inr (answer_only (lit "Paris")) ->
       fresh_ids d st ->
       handleSend stringify ready d fetch st payload
       = ({| message := [];
             messages :=
               messages st
               ++ [userMessage_of d (question_of st payload);
                   {| m_id := dr_assistantId d; m_role := assistant;
                      m_content := lit "Paris"; m_status := complete;
                      m_createdAt := dr_createdAt d; m_references := Some [] |}];
             isSending := false |},
          [QueryCall (question_of st payload)]).
Proof.
  split; [apply extractAnswer_refines|].
  intros ready d fetch st payload Hacc Hq Hfresh.
  unfold handleSend. rewrite (handleSend_begin_accepted _ _ _ _ Hacc), Hq.
  unfold handleSend_settle, setIsSending, setMessages. simpl isSending.
  cbn [messages message].
  replace (extractAnswer stringify (answer_only (lit "Paris"))) with (lit "Paris")
    by (vm_compute; reflexivity).
  replace (parseAnswer (lit "Paris"))
    with {| pa_content := lit "Paris"; pa_references := [] |}
    by (vm_compute; reflexivity).
  cbn [pa_content pa_references].
  rewrite settle_messages_pair; [reflexivity|].
  destruct Hfresh as [H1 H2]. split; assumption.
Qed.

Lemma C3_paris_witness :
  handleSend (fun _ => []) true drawn_ex (fetch_answer "Paris")
    (idle_chat "Capital of France?") None
  = ({| message := [];
        messages :=
          [userMessage_of drawn_ex (lit "Capital of France?");
           {| m_id := lit "a-1"; m_role := assistant;
              m_content := lit "Paris"; m_status := complete;
              m_createdAt := lit "2024-05-01T10:00:00.000Z";
              m_references := Some [] |}];
        isSending := false |},
     [QueryCall (lit "Capital of France?")]).
Proof.
  apply (proj2 (C3_extracted_answer (fun _ => [])) true drawn_ex
           (fetch_answer "Paris") (idle_chat "Capital of France?") None).
  - vm_compute. reflexivity.
  - vm_compute. reflexivity.
  - split; [discriminate|constructor].
Defined.

Lemma handleSend_clears_flag stringify ready d fetch st payload :
  send_rejected ready st payload = false ->
  isSending (fst (handleSend stringify ready d fetch st payload)) = false.
Proof.
  intros Hacc. unfold handleSend. rewrite (handleSend_begin_accepted _ _ _ _ Hacc).
  unfold handleSend_settle.
  destruct (queryDocuments (fetch (question_of st payload))); reflexivity.
Qed.

(** C5 as stated fails: when [fetch] rejects with an [Error] whose message
    is empty, the placeholder ends with status error and an empty content;
    the generic text stands in only for a thrown value that is not an
    [Error]. *)
Lemma C5_empty_message_shown :
  handleSend (fun _ => []) true drawn_ex (fetch_throws (ErrorObject []))
    (idle_chat "Capital of France?") None
  = ({| message := [];
        messages :=
          [userMessage_of drawn_ex (lit "Capital of France?");
           {| m_id := lit "a-1"; m_role := assistant;
              m_content := []; m_status := error;
              m_createdAt := lit "2024-05-01T10:00:00.000Z";
              m_references := Some [] |}];
        isSending := false |},
     [QueryCall (lit "Capital of France?"); ToastCall TOAST_TITLE []]).
Proof. vm_compute. reflexivity. Qed.

(** C5 (amended): when the query of an accepted send fails, the placeholder,
    inserted with status loading, ends with status error and, as content,
    the message of the failure when it is an [Error] and the generic text
    otherwise; this content is empty only for an [Error] with an empty
    message, never for a response that is not ok; the messages before it
    and the user message stay as they are; a toast is raised; and the
    in-flight flag is false at the end, whatever the outcome of the query. *)
Theorem C5_failed_query_settles stringify ready d fetch st payload err :
  send_rejected ready st payload = false ->
  fresh_ids d st ->
  queryDocuments (fetch (question_of st payload)) = inl err ->
  (exists st1,
     handleSend_begin ready d st payload = Some (st1, question_of st payload)
     /\ messages st1
        = messages st ++ [userMessage_of d (question_of st payload);
                          pendingAssistant_of d]
     /\ m_status (pendingAssistant_of d) = loading)
  /\ handleSend stringify ready d fetch st payload
     = ({| message := [];
           messages :=
             messages st
             ++ [userMessage_of d (question_of st payload);
                 {| m_id := dr_assistantId d; m_role := assistant;
                    m_content := description_of err; m_status := error;
                    m_createdAt := dr_createdAt d; m_references := Some [] |}];
           isSending := false |},
        [QueryCall (question_of st payload);
         ToastCall TOAST_TITLE (description_of err)])
  /\ (description_of err = [] <-> err = ErrorObject [])
  /\ (forall response,
        fetch (question_of st payload) = inr response ->
        fr_ok response = false -> description_of err <> [])
  /\ forall fetch',
       isSending (fst (handleSend stringify ready d fetch' st payload)) = false.
Proof.
  intros Hacc Hfresh Hq.
  split; [|split; [|split; [|split]]].
  - eexists. rewrite (handleSend_begin_accepted _ _ _ _ Hacc).
    split; [reflexivity|]. split; reflexivity.
  - unfold handleSend. rewrite (handleSend_begin_accepted _ _ _ _ Hacc), Hq.
    unfold handleSend_settle, setIsSending, setMessages. cbn [messages message].
    rewrite settle_messages_pair; [reflexivity|].
    destruct Hfresh as [H1 H2]. split; assumption.
  - apply description_empty_iff.
  - intros response Hr Hok. rewrite Hr in Hq.
    eapply description_of_status; eassumption.
  - intros fetch'. apply handleSend_clears_flag, Hacc.
Qed.

Lemma C5_failed_query_witness :
  handleSend (fun _ => []) true drawn_ex (fetch_status 500)
    (idle_chat "Capital of France?") None
  = ({| message := [];
        messages :=
          [userMessage_of drawn_ex (lit "Capital of France?");
           {| m_id := lit "a-1"; m_role := assistant;
              m_content := lit "Query request failed with status 500";
              m_status := error;
              m_createdAt := lit "2024-05-01T10:00:00.000Z";
              m_references := Some [] |}];
        isSending := false |},
     [QueryCall (lit "Capital of France?");
      ToastCall TOAST_TITLE (lit "Query request failed with status 500")]).
Proof.
  refine (proj1 (proj2 (C5_failed_query_settles (fun _ => []) true drawn_ex
                          (fetch_status 500) (idle_chat "Capital of France?") None
                          (ErrorObject (lit "Query request failed with status 500"))
                          _ _ _))).
  - vm_compute. reflexivity.
  - split; [discriminate|constructor].
  - vm_compute. reflexivity.
Defined.

(** ** The indexing lifecycle *)

Lemma index_settle_flags updater generateId indexedAt files outcome st :
  isIndexing (fst (index_settle updater generateId indexedAt files outcome st)) = false
  /\ isReady (fst (index_settle updater generateId indexedAt files outcome st)) = true.
Proof. destruct outcome; split; reflexivity. Qed.

Lemma effect_latestIndexedAt_flags st :
  isIndexing (effect_latestIndexedAt st) = isIndexing st
  /\ isReady (effect_latestIndexedAt st) = isReady st.
Proof.
  unfold effect_latestIndexedAt.
  destruct (length (documents st) =? 0)%nat; split; reflexivity.
Qed.

Lemma lifecycle_step_flags updater cfg ev cfg' :
  flags_agree cfg -> lifecycle_step updater cfg ev = Some cfg' -> flags_agree cfg'.
Proof.
  destruct cfg as [pending st]. unfold flags_agree. simpl. intros [Hi Hr].
  destruct ev as [parsed| |generateId indexedAt files outcome|];
    destruct pending; simpl; try discriminate; intros [= <-]; simpl.
  - unfold mount_documents. destruct (0 <? length parsed)%nat; simpl; auto.
  - auto.
  - apply index_settle_flags.
  - destruct (effect_latestIndexedAt_flags st) as [-> ->]. auto.
  - destruct (effect_latestIndexedAt_flags st) as [-> ->]. auto.
Qed.

Lemma lifecycle_run_flags updater evs : forall cfg cfg',
  flags_agree cfg -> lifecycle_run updater cfg evs = Some cfg' -> flags_agree cfg'.
Proof.
  induction evs as [|ev evs IH]; simpl; intros cfg cfg' Hinv.
  - intros [= <-]. exact Hinv.
  - destruct (lifecycle_step updater cfg ev) as [cfg1|] eqn:E; [|discriminate].
    apply IH. eapply lifecycle_step_flags; eassumption.
Qed.

(** C6: with either updater of the document list, in every state the
    indexing lifecycle reaches from the initial dashboard, [isIndexing] and
    [isReady] are not both true; while the request is pending [isIndexing]
    is true and [isReady] false; and whatever the outcome, the state
    [handleIndexDocuments] leaves has [isIndexing] false and [isReady]
    true. *)
Theorem C6_indexing_flags updater :
  (forall evs pending st,
     lifecycle_run updater (false, initialDashboard) evs = Some (pending, st) ->
     isIndexing st && isReady st = false
     /\ (pending = true -> isIndexing st = true /\ isReady st = false)
     /\ (pending = false -> isIndexing st = false /\ isReady st = true))
  /\ forall generateId indexedAt files fetched st,
       isIndexing (fst (handleIndexDocuments updater generateId indexedAt files
                          fetched st)) = false
       /\ isReady (fst (handleIndexDocuments updater generateId indexedAt files
                          fetched st)) = true.
Proof.
  split.
  - intros evs pending st H.
    apply (lifecycle_run_flags updater evs (false, initialDashboard)) in H;
      [|split; reflexivity].
    destruct H as [Hi Hr]. simpl in Hi, Hr. rewrite Hi, Hr.
    destruct pending; repeat split; try discriminate; reflexivity.
  - intros. apply index_settle_flags.
Qed.

Lemma C6_indexing_flags_witness :
  exists st,
    lifecycle_run (mergeDocuments localeCompare_ordinal)
      (false, initialDashboard) one_indexing
    = Some (false, st)
    /\ isIndexing st = false /\ isReady st = true.
Proof.
  eexists. split; [vm_compute; reflexivity|].
  refine (proj2 (proj2 (proj1 (C6_indexing_flags
                                 (mergeDocuments localeCompare_ordinal))
                          one_indexing false _ _)) eq_refl).
  vm_compute. reflexivity.
Defined.

(** Within the stretch that follows a successful request, the [try] block
    sets [isReady] before the [finally] block clears [isIndexing]; the two
    blocks run without interruption and their updates are committed
    together, which is the granularity of [lifecycle_step]. *)
Remark index_try_before_finally updater generateId indexedAt files response st :
  isIndexing (index_try updater generateId indexedAt files response
                (index_begin st)) = true
  /\ isReady (index_try updater generateId indexedAt files response
                (index_begin st)) = true.
Proof. split; reflexivity. Qed.

(** ** The latest indexing time *)

Lemma str_compare_refl a : str_compare a a = Eq.
Proof.
  induction a as [|x a IH]; simpl; [reflexivity|].
  rewrite N.compare_refl. exact IH.
Qed.

Lemma str_le_nil a : str_le [] a.
Proof. destruct a; reflexivity. Qed.

Lemma str_le_refl a : str_le a a.
Proof. unfold str_le, str_gt. rewrite str_compare_refl. reflexivity. Qed.

Lemma str_le_trans a : forall b c, str_le a b -> str_le b c -> str_le a c.
Proof.
  unfold str_le, str_gt.
  induction a as [|x a IH]; intros [|y b] [|z c]; simpl; try reflexivity;
    try discriminate.
  destruct (x ?= y) eqn:Exy; destruct (y ?= z) eqn:Eyz; try discriminate;
    intros Hab Hbc.
  - apply N.compare_eq in Exy, Eyz. subst. rewrite N.compare_refl. eauto.
  - apply N.compare_eq in Exy. subst. rewrite Eyz. reflexivity.
  - apply N.compare_eq in Eyz. subst. rewrite Exy. reflexivity.
  - rewrite N.compare_lt_iff in Exy, Eyz.
    assert (H : x < z) by lia. apply N.compare_lt_iff in H. rewrite H. reflexivity.
Qed.

Lemma str_gt_le a b : str_gt a b = true -> str_le b a.
Proof.
  unfold str_le, str_gt. revert b.
  induction a as [|x a IH]; intros [|y b]; simpl; try reflexivity; try discriminate.
  rewrite (N.compare_antisym x y).
  destruct (x ?= y) eqn:E; simpl; try discriminate; [|reflexivity].
  apply IH.
Qed.

(** One step of the reduction keeps the accumulator an upper bound. *)
Lemma latest_step_bound latest doc :
  str_le (latest_or_empty latest) (latest_or_empty (latest_step latest doc))
  /\ str_le (indexedAt_or_empty doc) (latest_or_empty (latest_step latest doc)).
Proof.
  unfold latest_step, latest_or_empty, indexedAt_or_empty.
  destruct latest as [[|y l]|]; simpl; try (split; [apply str_le_nil|apply str_le_refl]).
  destruct (d_indexedAt doc) as [[|x a]|]; simpl;
    try (split; [apply str_le_refl|apply str_le_nil]).
  destruct (str_gt (x :: a) (y :: l)) eqn:E.
  - split; [apply str_gt_le, E|apply str_le_refl].
  - split; [apply str_le_refl|exact E].
Qed.

Lemma fold_latest_bound docs : forall latest,
  str_le (latest_or_empty latest) (latest_or_empty (fold_left latest_step docs latest))
  /\ forall d, In d docs ->
       str_le (indexedAt_or_empty d)
              (latest_or_empty (fold_left latest_step docs latest)).
Proof.
  induction docs as [|doc docs IH]; simpl; intros latest.
  - split; [apply str_le_refl|tauto].
  - destruct (IH (latest_step latest doc)) as [H1 H2].
    destruct (latest_step_bound latest doc) as [H3 H4].
    split; [eapply str_le_trans; eassumption|].
    intros d [<-|Hd]; [eapply str_le_trans; eassumption|auto].
Qed.

(** The accumulator stays the [indexedAt] of one of the documents. *)
Lemma fold_latest_member docs : forall latest,
  fold_left latest_step docs latest = latest
  \/ exists d, In d docs /\ fold_left latest_step docs latest = d_indexedAt d.
Proof.
  induction docs as [|doc docs IH]; simpl; intros latest; [tauto|].
  destruct (IH (latest_step latest doc)) as [H|(d & Hd & H)].
  - rewrite H. unfold latest_step.
    destruct (str_falsy latest
              || negb (str_falsy (d_indexedAt doc)) && opt_gt (d_indexedAt doc) latest);
      eauto.
  - eauto.
Qed.

Lemma latest_step_first doc :
  latest_step (Some (default [] (d_indexedAt doc))) doc = d_indexedAt doc.
Proof.
  unfold latest_step. destruct (d_indexedAt doc) as [[|x a]|]; simpl; try reflexivity.
  unfold str_gt. rewrite str_compare_refl. reflexivity.
Qed.

Lemma reduce_latest_member doc docs :
  exists d, In d (doc :: docs) /\ reduce_latest (doc :: docs) = d_indexedAt d.
Proof.
  unfold reduce_latest. simpl. rewrite latest_step_first.
  destruct (fold_latest_member docs (d_indexedAt doc)) as [H|(d & Hd & H)]; eauto.
Qed.

(** C9: nothing is derived from an empty document list, so the latest
    indexing time of the initial dashboard stays absent; for a non-empty
    list the derived time is the [indexedAt] of one of the documents and no
    document has a greater one in the order of string comparison. *)
Theorem C9_latest_indexedAt :
  lastIndexedAt (effect_latestIndexedAt initialDashboard) = None
  /\ (forall st, documents st = [] -> effect_latestIndexedAt st = st)
  /\ forall st,
       documents st <> [] ->
       (exists d, In d (documents st)
                  /\ lastIndexedAt (effect_latestIndexedAt st) = d_indexedAt d)
       /\ forall d, In d (documents st) ->
            str_gt (indexedAt_or_empty d)
                   (latest_or_empty (lastIndexedAt (effect_latestIndexedAt st)))
            = false.
Proof.
  split; [reflexivity|]. split.
  - intros st H. unfold effect_latestIndexedAt. rewrite H. reflexivity.
  - intros st H. unfold effect_latestIndexedAt.
    destruct (documents st) as [|doc docs] eqn:E; [congruence|]. simpl.
    split; [apply reduce_latest_member|].
    intros d Hd. apply (proj2 (fold_latest_bound (doc :: docs) _) d Hd).
Qed.

Lemma C9_latest_indexedAt_witness :
  lastIndexedAt (effect_latestIndexedAt three_documents)
  = Some (lit "2024-06-01T10:00:00.000Z")
  /\ str_gt (lit "2024-05-01T10:00:00.000Z") (lit "2024-06-01T10:00:00.000Z") = false.
Proof.
  split; [vm_compute; reflexivity|].
  refine (proj2 (proj2 (proj2 C9_latest_indexedAt) three_documents _)
            (doc_ex "a.pdf" "2024-05-01T10:00:00.000Z") _).
  - discriminate.
  - left. reflexivity.
Defined.

(** ** Persistence *)

(** C10: the document effect writes the serialized list under the document
    key whatever the list is; with the empty list it replaces what was
    stored there, whereas the conversation effect leaves the storage as it
    is when the conversation list is empty. *)
Theorem C10_documents_always_written (stringify : jsvalue -> jsstring)
    (localStorage : gmap jsstring jsstring) (docs : list IndexedDocument) :
  persist_documents stringify (Some localStorage) docs
  = Some (<[DOCUMENT_STORAGE_KEY :=
              stringify (JArr (List.map document_to_js docs))]> localStorage)
  /\ (persist_documents stringify (Some localStorage) docs
        ≫= (fun ls => ls !! DOCUMENT_STORAGE_KEY))
     = Some (stringify (JArr (List.map document_to_js docs)))
  /\ (persist_documents stringify (Some localStorage) []
        ≫= (fun ls => ls !! DOCUMENT_STORAGE_KEY))
     = Some (stringify (JArr []))
  /\ persist_conversations stringify (Some localStorage) [] = Some localStorage.
Proof.
  repeat split; simpl; apply lookup_insert_eq.
Qed.

(** ** Sorting *)

Section Sort.
Context {A : Type}.
Variable comparefn : A -> A -> Z.
Hypothesis cmp_total : forall a b, (0 < comparefn a b)%Z -> (comparefn b a <= 0)%Z.
Hypothesis cmp_trans : forall a b c,
  (comparefn a b <= 0)%Z -> (comparefn b c <= 0)%Z -> (comparefn a c <= 0)%Z.

Lemma sort_insert_perm x l : Permutation (sort_insert comparefn x l) (x :: l).
Proof.
  induction l as [|y l IH]; simpl; [reflexivity|].
  destruct (comparefn x y <=? 0)%Z; [reflexivity|].
  rewrite IH. apply perm_swap.
Qed.

Lemma array_sort_perm l : Permutation (array_sort comparefn l) l.
Proof.
  induction l as [|x l IH]; simpl; [reflexivity|].
  rewrite sort_insert_perm. constructor. exact IH.
Qed.

Lemma sort_insert_sorted x l :
  StronglySorted (ranks_first comparefn) l ->
  StronglySorted (ranks_first comparefn) (sort_insert comparefn x l).
Proof.
  induction 1 as [|y l Hs IH Hy]; simpl.
  - repeat constructor.
  - destruct (comparefn x y <=? 0)%Z eqn:E.
    + apply Z.leb_le in E. constructor; [constructor; assumption|].
      constructor; [exact E|].
      eapply Forall_impl; [exact Hy|]. intros z Hz. eapply cmp_trans; eassumption.
    + apply Z.leb_gt in E. constructor; [exact IH|].
      rewrite sort_insert_perm. constructor; [|exact Hy].
      apply cmp_total. exact E.
Qed.

Lemma array_sort_sorted l :
  StronglySorted (ranks_first comparefn) (array_sort comparefn l).
Proof.
  induction l as [|x l IH]; simpl; [constructor|]. apply sort_insert_sorted, IH.
Qed.

(** Sorting a sorted array leaves it as it is. *)
Lemma array_sort_fixed l :
  StronglySorted (ranks_first comparefn) l -> array_sort comparefn l = l.
Proof.
  induction 1 as [|x l Hs IH Hx]; simpl; [reflexivity|].
  rewrite IH. destruct Hx as [|y l Hy _]; simpl; [reflexivity|].
  apply Z.leb_le in Hy. rewrite Hy. reflexivity.
Qed.
End Sort.

(** ** Merging documents *)

Lemma upsert_cons x l d :
  upsert (x :: l) d = if decide (d_name x = d_name d) then d :: l else x :: upsert l d.
Proof.
  unfold upsert. simpl. destruct (decide (d_name x = d_name d)); [reflexivity|].
  destruct (list_find (fun item => d_name item = d_name d) l) as [[i y]|];
    reflexivity.
Qed.

Lemma supersede_name d x : d_name (supersede d x) = d_name x.
Proof. unfold supersede. destruct (decide (d_name x = d_name d)); congruence. Qed.

Lemma supersede_same d x : d_name x = d_name d -> supersede d x = d.
Proof. intros H. unfold supersede. rewrite decide_True by exact H. reflexivity. Qed.

Lemma supersede_other d x : d_name x <> d_name d -> supersede d x = x.
Proof. intros H. unfold supersede. rewrite decide_False by exact H. reflexivity. Qed.

Lemma supersede_absent d l :
  d_name d ∉ List.map d_name l -> List.map (supersede d) l = l.
Proof.
  induction l as [|x l IH]; simpl; [reflexivity|]. intros H.
  apply not_elem_of_cons in H as [Hx Hl].
  rewrite supersede_other by congruence. rewrite IH by assumption. reflexivity.
Qed.

(** On a list without two documents of one name, [upsert] puts the document
    in the place of the one that has its name... *)
Lemma upsert_present l d :
  NoDup (List.map d_name l) -> d_name d ∈ List.map d_name l ->
  upsert l d = List.map (supersede d) l.
Proof.
  induction l as [|x l IH]; simpl; [intros _ H; inversion H|].
  intros Hnd Hin. apply NoDup_cons in Hnd as [Hx Hnd].
  rewrite upsert_cons. destruct (decide (d_name x = d_name d)) as [E|E].
  - rewrite (supersede_same _ _ E). rewrite supersede_absent by congruence.
    reflexivity.
  - rewrite (supersede_other _ _ E). rewrite IH; [reflexivity|assumption|].
    apply elem_of_cons in Hin as [Hin|Hin]; [congruence|assumption].
Qed.

(** ... and appends it when no document has its name. *)
Lemma upsert_absent l d :
  d_name d ∉ List.map d_name l -> upsert l d = l ++ [d].
Proof.
  induction l as [|x l IH]; simpl; [reflexivity|]. intros H.
  apply not_elem_of_cons in H as [Hx Hl].
  rewrite upsert_cons. rewrite decide_False by congruence. rewrite IH by assumption.
  reflexivity.
Qed.

Lemma map_supersede_names d l :
  List.map d_name (List.map (supersede d) l) = List.map d_name l.
Proof.
  rewrite List.map_map. apply List.map_ext. intros x. apply supersede_name.
Qed.

Lemma upsert_NoDup l d :
  NoDup (List.map d_name l) -> NoDup (List.map d_name (upsert l d)).
Proof.
  intros H. destruct (decide (d_name d ∈ List.map d_name l)) as [Hin|Hin].
  - rewrite upsert_present, map_supersede_names by assumption. exact H.
  - rewrite upsert_absent by assumption. rewrite List.map_app. simpl.
    apply NoDup_app. split; [exact H|]. split; [|apply NoDup_singleton].
    intros n Hn Hd. apply list_elem_of_singleton in Hd. subst n. contradiction.
Qed.

Lemma fold_upsert_NoDup batch : forall l,
  NoDup (List.map d_name l) -> NoDup (List.map d_name (fold_left upsert batch l)).
Proof.
  induction batch as [|d batch IH]; simpl; intros l H; [exact H|].
  apply IH, upsert_NoDup, H.
Qed.

Lemma upsert_elem l d x :
  NoDup (List.map d_name l) -> x ∈ upsert l d ->
  x = d \/ (x ∈ l /\ d_name x <> d_name d).
Proof.
  intros Hnd. destruct (decide (d_name d ∈ List.map d_name l)) as [Hin|Hin].
  - rewrite upsert_present by assumption. intros H.
    apply list_elem_of_In, in_map_iff in H as (y & <- & Hy).
    apply list_elem_of_In in Hy.
    destruct (decide (d_name y = d_name d)) as [E|E].
    + left. apply supersede_same, E.
    + right. rewrite (supersede_other _ _ E). auto.
  - rewrite upsert_absent by assumption. intros H.
    apply elem_of_app in H as [H|H].
    + right. split; [exact H|]. intros E. apply Hin. rewrite <- E.
      apply list_elem_of_In, in_map, list_elem_of_In, H.
    + left. apply list_elem_of_singleton in H. exact H.
Qed.

Lemma upsert_names l d n :
  NoDup (List.map d_name l) ->
  n = d_name d \/ n ∈ List.map d_name l -> n ∈ List.map d_name (upsert l d).
Proof.
  intros Hnd H. destruct (decide (d_name d ∈ List.map d_name l)) as [Hin|Hin].
  - rewrite upsert_present, map_supersede_names by assumption.
    destruct H as [->|H]; assumption.
  - rewrite upsert_absent by assumption. rewrite List.map_app. simpl.
    apply elem_of_app. destruct H as [->|H]; [right; apply list_elem_of_singleton|left];
      auto.
Qed.

Lemma overwrite_name batch : forall x, d_name (overwrite batch x) = d_name x.
Proof.
  unfold overwrite. induction batch as [|d batch IH]; simpl; intros x; [reflexivity|].
  rewrite IH. apply supersede_name.
Qed.

Lemma overwrite_snoc batch d x :
  overwrite (batch ++ [d]) x = supersede d (overwrite batch x).
Proof. unfold overwrite. rewrite fold_left_app. reflexivity. Qed.

(** Merging a batch into a list that already has all its names rewrites the
    documents where they stand. *)
Lemma fold_upsert_overwrite batch : forall l,
  NoDup (List.map d_name l) ->
  Forall (fun d => d_name d ∈ List.map d_name l) batch ->
  fold_left upsert batch l = List.map (overwrite batch) l.
Proof.
  induction batch as [|d batch IH]; simpl; intros l Hnd Hall.
  - symmetry. apply List.map_id.
  - apply Forall_cons in Hall as [Hd Hall].
    rewrite upsert_present by assumption.
    rewrite IH.
    + rewrite List.map_map. reflexivity.
    + rewrite map_supersede_names. exact Hnd.
    + rewrite map_supersede_names. exact Hall.
Qed.

(** After a batch is merged, the list has all the names of the batch and
    holds, for each, the document of the batch that came last. *)
Lemma fold_upsert_settled batch : forall prev,
  NoDup (List.map d_name prev) ->
  Forall (fun d => d_name d ∈ List.map d_name (fold_left upsert batch prev)) batch
  /\ Forall (fun x => overwrite batch x = x) (fold_left upsert batch prev).
Proof.
  induction batch as [|d batch IH] using rev_ind; intros prev Hnd.
  - split; [constructor|]. apply Forall_forall. reflexivity.
  - rewrite fold_left_app. simpl.
    destruct (IH prev Hnd) as [Hnames Hfix].
    pose proof (fold_upsert_NoDup batch prev Hnd) as Hnd'.
    set (C := fold_left upsert batch prev) in *.
    split.
    + apply Forall_app. split.
      * eapply Forall_impl; [exact Hnames|]. intros y Hy. simpl in Hy.
        apply upsert_names; auto.
      * constructor; [|constructor]. apply upsert_names; auto.
    + apply Forall_forall. intros x Hx. rewrite overwrite_snoc.
      apply (upsert_elem _ _ _ Hnd') in Hx as [->|[Hx Hne]].
      * apply supersede_same, overwrite_name.
      * rewrite Forall_forall in Hfix. rewrite (Hfix x Hx).
        apply supersede_other, Hne.
Qed.

Section MergeProperties.
Variable localeCompare : jsstring -> jsstring -> Z.
Hypothesis lc_consistent : consistent_comparator localeCompare.

Lemma by_indexedAt_desc_total a b :
  (0 < by_indexedAt_desc localeCompare a b)%Z ->
  (by_indexedAt_desc localeCompare b a <= 0)%Z.
Proof. apply (proj1 lc_consistent). Qed.

Lemma by_indexedAt_desc_trans a b c :
  (by_indexedAt_desc localeCompare a b <= 0)%Z ->
  (by_indexedAt_desc localeCompare b c <= 0)%Z ->
  (by_indexedAt_desc localeCompare a c <= 0)%Z.
Proof. intros H1 H2. exact (proj2 lc_consistent _ _ _ H2 H1). Qed.

Lemma mergeDocuments_sorted prev batch :
  StronglySorted (not_after localeCompare) (mergeDocuments localeCompare prev batch).
Proof.
  unfold mergeDocuments.
  apply (array_sort_sorted (by_indexedAt_desc localeCompare)
           by_indexedAt_desc_total by_indexedAt_desc_trans).
Qed.

Lemma mergeDocuments_NoDup prev batch :
  NoDup (List.map d_name prev) ->
  NoDup (List.map d_name (mergeDocuments localeCompare prev batch)).
Proof.
  intros H. unfold mergeDocuments.
  rewrite (Permutation_map d_name (array_sort_perm _ _)).
  apply fold_upsert_NoDup, H.
Qed.

Lemma fold_merge_invariant batches : forall docs,
  NoDup (List.map d_name docs) -> StronglySorted (not_after localeCompare) docs ->
  NoDup (List.map d_name (fold_left (mergeDocuments localeCompare) batches docs))
  /\ StronglySorted (not_after localeCompare)
       (fold_left (mergeDocuments localeCompare) batches docs).
Proof.
  induction batches as [|batch batches IH]; simpl; intros docs Hnd Hs; [auto|].
  apply IH; [apply mergeDocuments_NoDup, Hnd|apply mergeDocuments_sorted].
Qed.
End MergeProperties.

Lemma str_compare_antisym a : forall b, str_compare b a = CompOpp (str_compare a b).
Proof.
  induction a as [|x a IH]; intros [|y b]; simpl; try reflexivity.
  rewrite (N.compare_antisym x y). destruct (x ?= y); simpl; auto.
Qed.

Lemma localeCompare_ordinal_consistent : consistent_comparator localeCompare_ordinal.
Proof.
  unfold localeCompare_ordinal. split.
  - intros a b. rewrite (str_compare_antisym a b).
    destruct (str_compare a b); simpl; lia.
  - intros a b c Hab Hbc.
    assert (H : str_le a c).
    { apply (str_le_trans a b c); unfold str_le, str_gt.
      - destruct (str_compare a b); [reflexivity|reflexivity|lia].
      - destruct (str_compare b c); [reflexivity|reflexivity|lia]. }
    unfold str_le, str_gt in H. destruct (str_compare a c); [lia|lia|discriminate].
Qed.

(** C1: whatever batches are merged one after the other into the empty
    list, the result has no two documents of one name and is sorted by
    [indexedAt], highest first; in particular no document that ranks above
    the empty string follows one whose [indexedAt] is absent or empty. *)
Theorem C1_merged_list_invariant lc batches :
  consistent_comparator lc ->
  NoDup (List.map d_name (fold_left (mergeDocuments lc) batches []))
  /\ StronglySorted
       (fun a b => (lc (indexedAt_or_empty b) (indexedAt_or_empty a) <= 0)%Z)
       (fold_left (mergeDocuments lc) batches [])
  /\ forall before d after,
       fold_left (mergeDocuments lc) batches [] = before ++ d :: after ->
       str_falsy (d_indexedAt d) = true ->
       Forall (fun e => (lc (indexedAt_or_empty e) [] <= 0)%Z) after.
Proof.
  intros Hlc.
  destruct (fold_merge_invariant lc Hlc batches [] NoDup_nil_2
              (SSorted_nil _)) as [Hnd Hs].
  split; [exact Hnd|]. split; [exact Hs|].
  intros before d after E Hd. rewrite E in Hs.
  assert (Hs' : StronglySorted (not_after lc) (d :: after)).
  { clear -Hs. induction before as [|x before IH]; [exact Hs|].
    apply IH. inversion Hs; assumption. }
  inversion Hs' as [|? ? _ Hall]; subst.
  eapply Forall_impl; [exact Hall|]. intros e He.
  unfold not_after, by_indexedAt_desc in He.
  replace (indexedAt_or_empty d) with (@nil N) in He; [exact He|].
  unfold indexedAt_or_empty. destruct (d_indexedAt d) as [[|c s]|];
    [reflexivity|discriminate|reflexivity].
Qed.

Lemma C1_merged_list_witness :
  NoDup (List.map d_name
           (fold_left (mergeDocuments localeCompare_ordinal)
              [two_named_alike; reindexed] [])).
Proof.
  exact (proj1 (C1_merged_list_invariant localeCompare_ordinal
                  [two_named_alike; reindexed] localeCompare_ordinal_consistent)).
Defined.

(** C8 as stated fails: when the existing list holds two documents of one
    name, the first merge replaces the first of them and a second merge of
    the same batch replaces the other. *)
Lemma C8_second_merge_differs :
  mergeDocuments localeCompare_ordinal
    (mergeDocuments localeCompare_ordinal two_named_alike reindexed) reindexed
  <> mergeDocuments localeCompare_ordinal two_named_alike reindexed.
Proof. vm_compute. discriminate. Qed.

(** C8 (amended): when the existing list has no two documents of one name,
    as every list built by merges from the empty list, merging a batch a
    second time into the merged list yields the merged list again. *)
Theorem C8_merge_idempotent lc prev batch :
  consistent_comparator lc ->
  NoDup (List.map d_name prev) ->
  mergeDocuments lc (mergeDocuments lc prev batch) batch
  = mergeDocuments lc prev batch.
Proof.
  intros Hlc Hnd.
  pose proof (mergeDocuments_sorted lc Hlc prev batch) as Hs.
  pose proof (mergeDocuments_NoDup lc prev batch Hnd) as Hnd'.
  destruct (fold_upsert_settled batch prev Hnd) as [Hnames Hfix].
  set (M := mergeDocuments lc prev batch) in *.
  assert (Hperm : Permutation M (fold_left upsert batch prev))
    by apply array_sort_perm.
  unfold mergeDocuments at 1.
  rewrite fold_upsert_overwrite.
  - replace (List.map (overwrite batch) M) with M.
    + apply (array_sort_fixed (by_indexedAt_desc lc)). exact Hs.
    + rewrite <- (List.map_id M) at 1. apply List.map_ext_in.
      intros x Hx. symmetry. rewrite Forall_forall in Hfix. apply Hfix.
      rewrite <- Hperm. apply list_elem_of_In, Hx.
  - exact Hnd'.
  - eapply Forall_impl; [exact Hnames|]. intros d Hd. simpl in Hd.
    rewrite (Permutation_map d_name Hperm). exact Hd.
Qed.

Lemma C8_merge_idempotent_witness :
  mergeDocuments localeCompare_ordinal
    (mergeDocuments localeCompare_ordinal reindexed two_named_alike) two_named_alike
  = mergeDocuments localeCompare_ordinal reindexed two_named_alike.
Proof.
  apply (C8_merge_idempotent localeCompare_ordinal reindexed two_named_alike
           localeCompare_ordinal_consistent).
  vm_compute. repeat constructor. intros H. inversion H.
Defined.

(** * Further properties *)

(** ** The references of an answer *)

Lemma str_compare_eq a : forall b, str_compare a b = Eq <-> a = b.
Proof.
  induction a as [|x a IH]; intros [|y b]; simpl; split; try discriminate;
    try reflexivity.
  - destruct (x ?= y) eqn:E; try discriminate.
    apply N.compare_eq in E. subst y. intros H. apply IH in H. congruence.
  - intros [= -> ->]. rewrite N.compare_refl. apply str_compare_refl.
Qed.

Lemma includes_spec refs r : includes refs r = true <-> r ∈ refs.
Proof.
  unfold includes. rewrite existsb_exists. split.
  - intros (x & Hx & E). unfold str_eqb in E.
    destruct (str_compare r x) eqn:Ec; try discriminate.
    apply str_compare_eq in Ec. subst x. apply list_elem_of_In, Hx.
  - intros H. exists r. split; [apply list_elem_of_In, H|].
    unfold str_eqb. rewrite str_compare_refl. reflexivity.
Qed.

Lemma str_truthy_spec s : str_truthy s = true <-> s <> [].
Proof. destruct s; simpl; split; congruence. Qed.

Lemma push_reference_NoDup refs m : NoDup refs -> NoDup (push_reference refs m).
Proof.
  intros H. unfold push_reference.
  destruct (str_truthy (trim (slice_1_m1 m))); simpl; [|exact H].
  destruct (includes refs (trim (slice_1_m1 m))) eqn:E; simpl; [exact H|].
  apply NoDup_app. split; [exact H|]. split; [|apply NoDup_singleton].
  intros x Hx Hs. apply list_elem_of_singleton in Hs. subst x.
  apply includes_spec in Hx. congruence.
Qed.

Lemma push_reference_elem refs m r :
  r ∈ push_reference refs m
  <-> r ∈ refs \/ (r <> [] /\ r = trim (slice_1_m1 m)).
Proof.
  unfold push_reference.
  destruct (str_truthy (trim (slice_1_m1 m))) eqn:Et; simpl.
  - apply str_truthy_spec in Et.
    destruct (includes refs (trim (slice_1_m1 m))) eqn:E; simpl.
    + apply includes_spec in E. split; [tauto|]. intros [H|[_ ->]]; assumption.
    + rewrite elem_of_app, list_elem_of_singleton. split.
      * intros [H | ->]; [tauto|]. right. split; [exact Et|reflexivity].
      * intros [H|[_ ->]]; tauto.
  - split; [tauto|]. intros [H|[H ->]]; [exact H|].
    apply str_truthy_spec in H. congruence.
Qed.

Lemma fold_push_reference matches : forall refs,
  NoDup refs ->
  NoDup (fold_left push_reference matches refs)
  /\ forall r, r ∈ fold_left push_reference matches refs
       <-> r ∈ refs \/ (r <> [] /\ exists m, m ∈ matches /\ r = trim (slice_1_m1 m)).
Proof.
  induction matches as [|m matches IH]; simpl; intros refs Hnd.
  - split; [exact Hnd|]. intros r. split; [tauto|].
    intros [H|(_ & m & Hm & _)]; [exact H|inversion Hm].
  - destruct (IH (push_reference refs m) (push_reference_NoDup _ _ Hnd)) as [H1 H2].
    split; [exact H1|]. intros r. rewrite H2, push_reference_elem. split.
    + intros [[H|[Hne ->]]|(Hne & m' & Hm' & ->)]; [tauto| |].
      * right. split; [exact Hne|]. exists m. split; [left|reflexivity].
      * right. split; [exact Hne|]. exists m'. split; [right; exact Hm'|reflexivity].
    + intros [H|(Hne & m' & Hm' & ->)]; [tauto|].
      apply elem_of_cons in Hm' as [-> | Hm']; [tauto|].
      right. split; [exact Hne|]. eauto.
Qed.

(** X1: the references of an answer are pairwise distinct; they are exactly
    the non-empty trimmed insides of its bracketed spans; and each is free of
    white space at both ends. *)
Theorem X1_references_distinct_trimmed answer :
  NoDup (pa_references (parseAnswer answer))
  /\ (forall r, r ∈ pa_references (parseAnswer answer)
        <-> r <> [] /\ exists m, m ∈ matchAll re_bracket answer
                                 /\ r = trim (slice_1_m1 m))
  /\ Forall (fun r => trim r = r) (pa_references (parseAnswer answer)).
Proof.
  unfold parseAnswer. cbn [pa_references].
  destruct (fold_push_reference (matchAll re_bracket answer) [] (NoDup_nil_2))
    as [H1 H2].
  assert (H3 : forall r, r ∈ fold_left push_reference (matchAll re_bracket answer) []
                 <-> r <> [] /\ exists m, m ∈ matchAll re_bracket answer
                                          /\ r = trim (slice_1_m1 m)).
  { intros r. rewrite H2. split; [|tauto]. intros [H|H]; [inversion H|exact H]. }
  split; [exact H1|]. split; [exact H3|].
  apply Forall_forall. intros r Hr. apply H3 in Hr as (_ & m & _ & ->).
  apply trim_idempotent.
Qed.

(** ** The content of an answer *)

Lemma blank_mfree s : blank s = true -> mfree s.
Proof.
  induction s as [|c s IH]; simpl; [auto|]. intros H.
  apply andb_prop in H as [Hc Hs]. split; [|auto].
  apply re_bracket_other, ws_not_bracket, Hc.
Qed.

Lemma content_nil_iff_blank answer :
  pa_content (parseAnswer answer) = [] <-> blank answer = true.
Proof.
  split.
  - unfold parseAnswer. cbn [pa_content].
    match goal with |- (if (0 <? length ?c0)%nat then _ else _) = _ -> _ =>
      destruct c0 as [|x u] end; simpl.
    + apply trim_blank.
    + discriminate.
  - intros H. rewrite parseAnswer_mfree by (apply blank_mfree, H).
    apply trim_blank, H.
Qed.

(** X2: the content shown for an answer is empty only when the answer itself
    is empty or white space; it never starts or ends with white space. *)
Theorem X2_content_empty_iff_blank answer :
  (pa_content (parseAnswer answer) = [] <-> blank answer = true)
  /\ trim (pa_content (parseAnswer answer)) = pa_content (parseAnswer answer).
Proof.
  split; [apply content_nil_iff_blank|].
  unfold parseAnswer. cbn [pa_content].
  match goal with |- context [(0 <? length ?c0)%nat] =>
    destruct (0 <? length c0)%nat end.
  - destruct (matchAll re_bracket answer); apply trim_idempotent.
  - apply trim_idempotent.
Qed.

(** X3: a bracketed span is left in the content exactly when the answer
    consists of bracketed spans and white space only. *)
Theorem X3_content_keeps_span_iff_only_spans answer :
  matchAll re_bracket (pa_content (parseAnswer answer)) = []
  <-> only_spans answer = false.
Proof.
  unfold only_spans.
  destruct (matchAll re_bracket answer) as [|m ms] eqn:Em.
  - split; [reflexivity|]. intros _.
    apply mfree_matchAll in Em. rewrite (parseAnswer_mfree _ Em). simpl.
    apply mfree_matchAll, trim_mfree, Em.
  - set (c0 := trim (replace re_newlines [NEWLINE; NEWLINE]
                       (replace re_bracket [] answer))).
    assert (Ep : pa_content (parseAnswer answer)
                 = if (0 <? length c0)%nat then c0 else trim answer).
    { unfold parseAnswer. rewrite Em. reflexivity. }
    rewrite Ep. destruct (0 <? length c0)%nat eqn:E0.
    + split.
      * intros _. apply not_true_is_false. intros Hb. apply stripped_nil in Hb.
        fold c0 in Hb. rewrite Hb in E0. discriminate.
      * intros _. apply mfree_matchAll, trim_mfree, collapse_mfree, remove_mfree.
    + apply length_zero_nil in E0. unfold c0 in E0. apply stripped_nil in E0.
      rewrite E0. split; [|discriminate].
      destruct (trim_split answer) as (l & r & Hs & Hl & Hr & _).
      rewrite Hs in Em. rewrite matchAll_padded in Em by assumption.
      rewrite Em. discriminate.
Qed.

(** ** A successful reply is never shown blank *)

Lemma trimmed_text_not_blank s : str_truthy (trim s) = true -> blank (trim s) = false.
Proof.
  intros H. apply str_truthy_spec in H. apply not_true_is_false. intros Hb.
  apply trim_blank in Hb. rewrite trim_idempotent in Hb. contradiction.
Qed.

Lemma string_with_text_not_blank v :
  string_with_text v = true -> blank (trim (str_of v)) = false.
Proof.
  unfold string_with_text. intros H. apply andb_prop in H as [_ H].
  apply trimmed_text_not_blank, H.
Qed.

Lemma extractAnswer_not_blank stringify data :
  (forall v, is_structured v = true -> blank (stringify v) = false) ->
  blank (extractAnswer stringify data) = false.
Proof.
  intros Hs. unfold extractAnswer.
  destruct (string_with_text (qr_answer data)) eqn:E1;
    [apply string_with_text_not_blank, E1|].
  destruct (string_with_text (qr_response data)) eqn:E2;
    [apply string_with_text_not_blank, E2|].
  destruct (string_with_text (qr_result data)) eqn:E3;
    [apply string_with_text_not_blank, E3|].
  destruct (truthy (qr_data data) && string_with_text (qr_data data)) eqn:E4.
  - apply andb_prop in E4 as [_ E4]. apply string_with_text_not_blank, E4.
  - rewrite structured_iff. destruct (is_structured (qr_data data)) eqn:E5.
    + apply Hs, E5.
    + vm_compute. reflexivity.
Qed.

(** X4: whenever the serializer gives objects and arrays a text that is not
    blank, the text extracted from a response is not blank, and the content
    shown for it is not empty. *)
Theorem X4_reply_never_blank stringify data :
  (forall v, is_structured v = true -> blank (stringify v) = false) ->
  blank (extractAnswer stringify data) = false
  /\ pa_content (parseAnswer (extractAnswer stringify data)) <> [].
Proof.
  intros Hs. pose proof (extractAnswer_not_blank stringify data Hs) as H.
  split; [exact H|]. intros E. apply content_nil_iff_blank in E. congruence.
Qed.

Lemma X4_reply_never_blank_witness :
  pa_content (parseAnswer (extractAnswer (fun _ => lit "{}")
                             {| qr_answer := JStr (lit "   ");
                                qr_response := JNull;
                                qr_result := JUndefined;
                                qr_data := JObj [] |})) <> [].
Proof.
  refine (proj2 (X4_reply_never_blank (fun _ => lit "{}") _ _)).
  intros v _. vm_compute. reflexivity.
Defined.

(** ** One send *)

Lemma settle_messages_ids aid content status refs ms :
  List.map m_id (settle_messages aid content status refs ms) = List.map m_id ms
  /\ List.map m_role (settle_messages aid content status refs ms) = List.map m_role ms
  /\ List.map m_createdAt (settle_messages aid content status refs ms)
     = List.map m_createdAt ms.
Proof.
  unfold settle_messages. rewrite !List.map_map.
  repeat split; apply List.map_ext; intros m;
    destruct (bool_decide (m_id m = aid)); reflexivity.
Qed.

Lemma settle_messages_lookup aid content status refs ms i m :
  ms !! i = Some m -> m_id m <> aid ->
  settle_messages aid content status refs ms !! i = Some m.
Proof.
  revert i. induction ms as [|x ms IH]; intros [|i]; simpl; try discriminate.
  - intros [= ->] Hne. rewrite bool_decide_eq_false_2 by exact Hne. reflexivity.
  - apply IH.
Qed.

Lemma settle_messages_settled aid content status refs ms :
  status = complete \/ status = error ->
  Forall (fun m => m_id m = aid \/ m_status m = complete \/ m_status m = error) ms ->
  all_settled (settle_messages aid content status refs ms).
Proof.
  intros Hs. unfold all_settled, settle_messages.
  induction 1 as [|m ms Hm _ IH]; simpl; constructor; [|exact IH].
  destruct (bool_decide (m_id m = aid)) eqn:E; [exact Hs|].
  apply bool_decide_eq_false in E. tauto.
Qed.

Lemma pair_induction {A} (P : list A -> Prop) :
  P [] -> (forall u, P [u]) -> (forall u a l, P l -> P (u :: a :: l)) ->
  forall l, P l.
Proof.
  intros H0 H1 H2 l.
  assert (H : P l /\ forall x, P (x :: l)); [|exact (proj1 H)].
  induction l as [|y l [IH1 IH2]]; split; auto.
Qed.

Lemma paired_roles ms : forall ms',
  List.map m_role ms = List.map m_role ms' -> paired ms -> paired ms'.
Proof.
  induction ms as [|u|u a ms IH] using pair_induction;
    intros [|u' [|a' ms']]; simpl; try discriminate; try tauto.
  intros [= Hu Ha Hrest] (H1 & H2 & H3).
  split; [congruence|]. split; [congruence|]. apply IH; assumption.
Qed.

Lemma paired_snoc ms u a :
  paired ms -> m_role u = user -> m_role a = assistant -> paired (ms ++ [u; a]).
Proof.
  intros H Hu Ha.
  induction ms as [|x|x y ms IH] using pair_induction; simpl in *; tauto.
Qed.

(** The shape of the result of an accepted send. *)
Lemma handleSend_accepted stringify ready d fetch st payload :
  send_rejected ready st payload = false ->
  exists content status refs toasts,
    handleSend stringify ready d fetch st payload
    = ({| message := [];
          messages :=
            settle_messages (dr_assistantId d) content status refs
              (messages st ++ [userMessage_of d (question_of st payload);
                               pendingAssistant_of d]);
          isSending := false |},
       QueryCall (question_of st payload) :: toasts)
    /\ (status = complete /\ toasts = []
        \/ status = error /\ toasts = [ToastCall TOAST_TITLE content]).
Proof.
  intros Hacc. unfold handleSend. rewrite (handleSend_begin_accepted _ _ _ _ Hacc).
  unfold handleSend_settle.
  destruct (queryDocuments (fetch (question_of st payload))) as [e|response].
  - exists (description_of e), error, [], [ToastCall TOAST_TITLE (description_of e)].
    split; [reflexivity|]. right. split; reflexivity.
  - eexists _, complete, _, []. split; [reflexivity|]. left. split; reflexivity.
Qed.

Lemma handleSend_rejected stringify ready d fetch st payload :
  send_rejected ready st payload = true ->
  handleSend stringify ready d fetch st payload = (st, []).
Proof. intros H. unfold handleSend, handleSend_begin. rewrite H. reflexivity. Qed.

(** X5: an accepted send, whatever the network answers, appends exactly the
    user message and the assistant message to the list; the identifiers,
    roles and creation times of the earlier messages stay in place, and an
    earlier message is left as it was unless it bears the identifier drawn
    for the placeholder; the input box is cleared. *)
Theorem X5_send_appends_one_pair stringify ready d fetch st payload :
  send_rejected ready st payload = false ->
  let st' := fst (handleSend stringify ready d fetch st payload) in
  List.map m_id (messages st')
  = List.map m_id (messages st) ++ [dr_userId d; dr_assistantId d]
  /\ List.map m_role (messages st') = List.map m_role (messages st) ++ [user; assistant]
  /\ List.map m_createdAt (messages st')
     = List.map m_createdAt (messages st) ++ [dr_createdAt d; dr_createdAt d]
  /\ (forall i m, messages st !! i = Some m -> m_id m <> dr_assistantId d ->
        messages st' !! i = Some m)
  /\ message st' = [].
Proof.
  intros Hacc.
  destruct (handleSend_accepted stringify ready d fetch st payload Hacc)
    as (content & status & refs & toasts & E & _).
  rewrite E. cbn [fst messages message].
  destruct (settle_messages_ids (dr_assistantId d) content status refs
              (messages st ++ [userMessage_of d (question_of st payload);
                               pendingAssistant_of d])) as (H1 & H2 & H3).
  rewrite H1, H2, H3, !List.map_app. repeat split.
  intros i m Hi Hne. apply settle_messages_lookup; [|exact Hne].
  apply lookup_app_l_Some, Hi.
Qed.

Lemma X5_send_appends_one_pair_witness :
  List.map m_id
    (messages (fst (handleSend (fun _ => []) true drawn_ex (fetch_status 503)
                      (idle_chat " hello ") None)))
  = [lit "u-1"; lit "a-1"].
Proof.
  refine (proj1 (X5_send_appends_one_pair (fun _ => []) true drawn_ex
                   (fetch_status 503) (idle_chat " hello ") None _)).
  vm_compute. reflexivity.
Defined.

(** X6: a call of [handleSend] reaches the network at most once, with the
    trimmed question, which is never empty; a toast is raised only behind a
    query; and without a query the state is the one before. *)
Theorem X6_send_effects stringify ready d fetch st payload :
  (handleSend stringify ready d fetch st payload = (st, []))
  \/ (exists toasts,
        snd (handleSend stringify ready d fetch st payload)
        = QueryCall (trim (default (message st) payload)) :: toasts
        /\ trim (default (message st) payload) <> []
        /\ ready = true /\ isSending st = false
        /\ (toasts = [] \/ exists description,
                             toasts = [ToastCall TOAST_TITLE description])).
Proof.
  destruct (send_rejected ready st payload) eqn:E.
  - left. apply handleSend_rejected, E.
  - right.
    destruct (handleSend_accepted stringify ready d fetch st payload E)
      as (content & status & refs & toasts & Eq & Hs).
    exists toasts. rewrite Eq. cbn [snd].
    unfold send_rejected in E. apply orb_false_elim in E as [E E3].
    apply orb_false_elim in E as [E1 E2].
    apply negb_false_iff in E1, E2. apply str_truthy_spec in E1.
    repeat split; try assumption.
    destruct Hs as [[_ ->]|[_ ->]]; eauto.
Qed.

(** ** Any number of events *)

Lemma handleSend_keeps_settled stringify ready d fetch st payload :
  isSending st = false -> all_settled (messages st) -> paired (messages st) ->
  let st' := fst (handleSend stringify ready d fetch st payload) in
  isSending st' = false /\ all_settled (messages st') /\ paired (messages st').
Proof.
  intros Hi Hs Hp. destruct (send_rejected ready st payload) eqn:E.
  - rewrite (handleSend_rejected _ _ _ _ _ _ E). simpl. auto.
  - destruct (handleSend_accepted stringify ready d fetch st payload E)
      as (content & status & refs & toasts & Eq & Hst).
    rewrite Eq. cbn [fst messages isSending]. split; [reflexivity|]. split.
    + apply settle_messages_settled; [destruct Hst as [[-> _]|[-> _]]; auto|].
      apply Forall_app. split.
      * eapply Forall_impl; [exact Hs|]. simpl. tauto.
      * constructor; [right; left; reflexivity|].
        constructor; [left; reflexivity|constructor].
    + eapply paired_roles.
      * symmetry. apply settle_messages_ids.
      * apply paired_snoc; [exact Hp|reflexivity|reflexivity].
Qed.

Lemma chat_step_keeps_settled stringify st ev :
  isSending st = false -> all_settled (messages st) -> paired (messages st) ->
  isSending (chat_step stringify st ev) = false
  /\ all_settled (messages (chat_step stringify st ev))
  /\ paired (messages (chat_step stringify st ev)).
Proof.
  intros Hi Hs Hp. destruct ev as [ready [text|d net|d net key shiftKey|d net prompt]];
    unfold chat_step; cbn [fst snd].
  - simpl. auto.
  - unfold handleSendClick.
    destruct (negb (str_truthy (trim (message st))) || negb ready); simpl; auto.
    apply handleSend_keeps_settled; assumption.
  - unfold handleKeyDown.
    destruct (bool_decide (key = lit "Enter") && negb shiftKey); simpl; auto.
    apply handleSend_keeps_settled; assumption.
  - unfold handleQuickPrompt. apply handleSend_keeps_settled; assumption.
Qed.

(** X7: in a conversation that starts empty, after any sequence of typing,
    clicks on the send button, key presses and quick prompts, each send run
    to its end, no send is in flight, every message is complete or in error
    (none idle or loading), and the list is made of pairs: a user message
    followed by an assistant message. *)
Theorem X7_chat_history_shape stringify evs :
  isSending (chat_run stringify newChat evs) = false
  /\ all_settled (messages (chat_run stringify newChat evs))
  /\ paired (messages (chat_run stringify newChat evs)).
Proof.
  unfold chat_run.
  assert (H : forall st,
             isSending st = false /\ all_settled (messages st) /\ paired (messages st) ->
             isSending (fold_left (chat_step stringify) evs st) = false
             /\ all_settled (messages (fold_left (chat_step stringify) evs st))
             /\ paired (messages (fold_left (chat_step stringify) evs st))).
  { induction evs as [|ev evs IH]; simpl; intros st Hst; [exact Hst|].
    apply IH. destruct Hst as (H1 & H2 & H3).
    apply chat_step_keeps_settled; assumption. }
  apply H. repeat split. constructor.
Qed.

(** X8: the send button adds no condition of its own: in every state a
    click does what [handleSend] does without a payload. *)
Theorem X8_click_is_send stringify ready d fetch st :
  handleSendClick stringify ready d fetch st
  = handleSend stringify ready d fetch st None.
Proof.
  unfold handleSendClick.
  destruct (negb (str_truthy (trim (message st))) || negb ready) eqn:E;
    [|reflexivity].
  symmetry. apply handleSend_rejected. unfold send_rejected, question_of. simpl.
  rewrite E. reflexivity.
Qed.

(** ** Showing and hiding references *)



(** ** Storage keys *)

Lemma storageKey_Some conversationId key :
  storageKey conversationId = Some key ->
  conversationId <> [] /\ key = STORAGE_PREFIX ++ lit ":" ++ conversationId.
Proof.
  unfold storageKey. destruct conversationId as [|c s]; simpl; [discriminate|].
  intros [= <-]. split; [discriminate|reflexivity].
Qed.

Lemma storageKey_injective a b key :
  storageKey a = Some key -> storageKey b = Some key -> a = b.
Proof.
  intros Ha Hb. apply storageKey_Some in Ha as [_ ->].
  apply storageKey_Some in Hb as [_ Hb].
  apply app_inv_head in Hb. apply app_inv_head in Hb. congruence.
Qed.

Lemma storageKey_not_dashboard conversationId key :
  storageKey conversationId = Some key ->
  key <> DOCUMENT_STORAGE_KEY /\ key <> CONVERSATION_STORAGE_KEY
  /\ key <> DOCUMENT_MESSAGE_KEY.
Proof.
  intros H. apply storageKey_Some in H as [_ ->].
  repeat split; intros E; vm_compute in E; discriminate.
Qed.

(** X10: each storage key belongs to one writer. Saving the history of a
    conversation changes neither the document list, the conversation list,
    the last status message nor the history of any other conversation, and
    with an empty conversation identifier it writes nothing; the three
    effects of the dashboard change the history of no conversation. *)
Theorem X10_storage_keys_apart (stringify : jsvalue -> jsstring)
    (localStorage : gmap jsstring jsstring) (conversationId : jsstring)
    (msgs : list MessageItem) (docs : list IndexedDocument)
    (convs : list Conversation) (note : option jsstring) :
  (exists after,
     flush_history stringify (Some localStorage) conversationId msgs = Some after
     /\ after !! DOCUMENT_STORAGE_KEY = localStorage !! DOCUMENT_STORAGE_KEY
     /\ after !! CONVERSATION_STORAGE_KEY = localStorage !! CONVERSATION_STORAGE_KEY
     /\ after !! DOCUMENT_MESSAGE_KEY = localStorage !! DOCUMENT_MESSAGE_KEY
     /\ (forall other key, other <> conversationId ->
           storageKey other = Some key -> after !! key = localStorage !! key)
     /\ (conversationId = [] -> after = localStorage))
  /\ forall other key after,
       storageKey other = Some key ->
       persist_documents stringify (Some localStorage) docs = Some after
       \/ persist_conversations stringify (Some localStorage) convs = Some after
       \/ persist_lastMessage (Some localStorage) note = Some after ->
       after !! key = localStorage !! key.
Proof.
  split.
  - unfold flush_history. destruct (storageKey conversationId) as [key|] eqn:Ek.
    + destruct (storageKey_not_dashboard _ _ Ek) as (H1 & H2 & H3).
      eexists. split; [reflexivity|].
      rewrite !lookup_insert_ne by assumption. repeat split.
      * intros other k Hne Hk. apply lookup_insert_ne. intros ->.
        apply Hne. eapply storageKey_injective; eassumption.
      * intros ->. discriminate.
    + exists localStorage. repeat split.
  - intros other key after Hk H.
    destruct (storageKey_not_dashboard _ _ Hk) as (H1 & H2 & H3).
    destruct H as [H|[H|H]].
    + injection H as <-. apply lookup_insert_ne. congruence.
    + unfold persist_conversations in H.
      destruct (length convs =? 0)%nat; injection H as <-; [reflexivity|].
      apply lookup_insert_ne. congruence.
    + unfold persist_lastMessage in H.
      destruct note as [[|c s]|]; injection H as <-;
        try (apply lookup_delete_ne; congruence).
      apply lookup_insert_ne. congruence.
Qed.

Lemma X10_storage_keys_apart_witness :
  (<[DOCUMENT_STORAGE_KEY := lit "[]"]> (∅ : gmap jsstring jsstring))
    !! lit "chat-history:1"
  = (∅ : gmap jsstring jsstring) !! lit "chat-history:1".
Proof.
  exact (proj2 (X10_storage_keys_apart (fun _ => lit "[]") ∅ (lit "1") [] [] [] None)
           (lit "1") (lit "chat-history:1") _ eq_refl (or_introl eq_refl)).
Defined.

Lemma mount_documents_lastMessage parsed st :
  lastMessage (mount_documents parsed st) = lastMessage st.
Proof. unfold mount_documents. destruct (0 <? length parsed)%nat; reflexivity. Qed.

Lemma persist_lastMessage_documents (localStorage : gmap jsstring jsstring)
    (note : option jsstring) :
  exists after,
    persist_lastMessage (Some localStorage) note = Some after
    /\ after !! DOCUMENT_STORAGE_KEY = localStorage !! DOCUMENT_STORAGE_KEY
    /\ after !! DOCUMENT_MESSAGE_KEY = (if str_falsy note then None else note).
Proof.
  assert (Hne : DOCUMENT_MESSAGE_KEY <> DOCUMENT_STORAGE_KEY) by discriminate.
  unfold persist_lastMessage.
  destruct note as [[|c s]|]; eexists; (split; [reflexivity|]); simpl.
  - rewrite lookup_delete_ne, lookup_delete_eq by exact Hne. auto.
  - rewrite lookup_insert_ne, lookup_insert_eq by exact Hne. auto.
  - rewrite lookup_delete_ne, lookup_delete_eq by exact Hne. auto.
Qed.

(** X11: the last status message survives a reload as long as the stored
    document text, if any, parses: after the effect has stored the message,
    the mount effect of a fresh dashboard restores it, and an absent or
    empty message removes the key and reads back as absent. When the
    document text does not parse, the mount effect restores no message. *)
Theorem X11_last_message_reload
    (parse : jsstring -> Thrown + list IndexedDocument)
    (localStorage : gmap jsstring jsstring) (note : option jsstring) :
  (documents_readable parse localStorage ->
   lastMessage
     (mount_stored_documents parse (persist_lastMessage (Some localStorage) note)
        initialDashboard)
   = (if str_falsy note then None else note))
  /\ (~ documents_readable parse localStorage ->
      lastMessage
        (mount_stored_documents parse
           (persist_lastMessage (Some localStorage) note) initialDashboard)
      = None)
  /\ (str_falsy note = true ->
      persist_lastMessage (Some localStorage) note
        ≫= (fun ls => ls !! DOCUMENT_MESSAGE_KEY) = None).
Proof.
  destruct (persist_lastMessage_documents localStorage note)
    as (after & Ep & Hdoc & Hmsg).
  rewrite Ep. unfold documents_readable, mount_stored_documents. rewrite Hdoc.
  assert (Hrestore : forall st, lastMessage st = None ->
            lastMessage (mount_lastMessage (Some after) st)
            = (if str_falsy note then None else note)).
  { intros st Hst. unfold mount_lastMessage. rewrite Hmsg.
    destruct note as [[|c s]|]; simpl; auto. }
  split; [|split].
  - destruct (localStorage !! DOCUMENT_STORAGE_KEY) as [[|c s]|].
    + intros _. apply Hrestore. reflexivity.
    + intros (parsed & ->). apply Hrestore. apply mount_documents_lastMessage.
    + intros _. apply Hrestore. reflexivity.
  - destruct (localStorage !! DOCUMENT_STORAGE_KEY) as [[|c s]|];
      try (intros H; destruct (H I)).
    destruct (parse (c :: s)) as [thrown|parsed]; [reflexivity|].
    intros H. destruct H. eauto.
  - intros Hn. simpl. rewrite Hmsg, Hn. reflexivity.
Qed.

Lemma X11_last_message_reload_witness :
  lastMessage
    (mount_stored_documents (fun _ => inr [])
       (persist_lastMessage (Some ({[DOCUMENT_STORAGE_KEY := lit "[]"]}))
          (Some (lit "indexed")))
       initialDashboard)
  = Some (lit "indexed")
  /\ lastMessage
       (mount_stored_documents (fun _ => inl OtherValue)
          (persist_lastMessage (Some ({[DOCUMENT_STORAGE_KEY := lit "{oops"]}))
             (Some (lit "indexed")))
          initialDashboard)
     = None.
Proof.
  split.
  - refine (proj1 (X11_last_message_reload (fun _ => inr [])
                     {[DOCUMENT_STORAGE_KEY := lit "[]"]} (Some (lit "indexed")))
              _).
    vm_compute. eauto.
  - refine (proj1 (proj2 (X11_last_message_reload (fun _ => inl OtherValue)
                            {[DOCUMENT_STORAGE_KEY := lit "{oops"]}
                            (Some (lit "indexed"))))
              _).
    vm_compute. intros [parsed H]. discriminate.
Defined.

(** ** What a merge keeps and adds *)

Lemma upsert_names_iff l d n :
  n ∈ List.map d_name (upsert l d) <-> n ∈ List.map d_name l \/ n = d_name d.
Proof.
  induction l as [|x l IH]; simpl.
  - rewrite list_elem_of_singleton. split; [tauto|]. intros [H|H]; [inversion H|exact H].
  - rewrite upsert_cons. destruct (decide (d_name x = d_name d)) as [E|E]; simpl.
    + rewrite !elem_of_cons. rewrite E. tauto.
    + rewrite !elem_of_cons, IH. tauto.
Qed.

Lemma upsert_keeps l d x : x ∈ l -> d_name x <> d_name d -> x ∈ upsert l d.
Proof.
  induction l as [|y l IH]; simpl; [intros H; inversion H|].
  intros H Hne. rewrite upsert_cons.
  apply elem_of_cons in H as [<-|H].
  - rewrite decide_False by exact Hne. left.
  - destruct (decide (d_name y = d_name d)); right; auto.
Qed.

Lemma upsert_has l d : d ∈ upsert l d.
Proof.
  induction l as [|y l IH]; simpl; [left|].
  rewrite upsert_cons. destruct (decide (d_name y = d_name d)); [left|right; exact IH].
Qed.

Lemma fold_upsert_names batch : forall l n,
  n ∈ List.map d_name (fold_left upsert batch l)
  <-> n ∈ List.map d_name l \/ n ∈ List.map d_name batch.
Proof.
  induction batch as [|d batch IH]; simpl; intros l n.
  - split; [tauto|]. intros [H|H]; [exact H|inversion H].
  - rewrite IH, upsert_names_iff, elem_of_cons. tauto.
Qed.

Lemma fold_upsert_keeps batch : forall l x,
  x ∈ l -> d_name x ∉ List.map d_name batch -> x ∈ fold_left upsert batch l.
Proof.
  induction batch as [|d batch IH]; simpl; intros l x Hx Hn; [exact Hx|].
  apply not_elem_of_cons in Hn as [Hd Hn].
  apply IH; [|exact Hn]. apply upsert_keeps; assumption.
Qed.

Lemma elem_of_map_name (x : IndexedDocument) l :
  x ∈ l -> d_name x ∈ List.map d_name l.
Proof. intros H. apply list_elem_of_In, in_map, list_elem_of_In, H. Qed.

Lemma mergeDocuments_elem lc prev batch x :
  x ∈ mergeDocuments lc prev batch <-> x ∈ fold_left upsert batch prev.
Proof. unfold mergeDocuments. rewrite (array_sort_perm _ _). reflexivity. Qed.

(** X12: a merge loses no name and invents none: the names of the merged
    list are those of the existing list and of the batch; and a document of
    the existing list whose name is not in the batch is still there,
    unchanged. This holds for any existing list and any comparator. *)
Theorem X12_merge_keeps_documents lc prev batch :
  (forall n, n ∈ List.map d_name (mergeDocuments lc prev batch)
             <-> n ∈ List.map d_name prev \/ n ∈ List.map d_name batch)
  /\ forall x, x ∈ prev -> d_name x ∉ List.map d_name batch ->
               x ∈ mergeDocuments lc prev batch.
Proof.
  split.
  - intros n. unfold mergeDocuments.
    rewrite (Permutation_map d_name (array_sort_perm _ _)). apply fold_upsert_names.
  - intros x Hx Hn. apply mergeDocuments_elem, fold_upsert_keeps; assumption.
Qed.

Lemma X12_merge_keeps_documents_witness :
  doc_ex "b.pdf" "2024-06-01T10:00:00.000Z"
  ∈ mergeDocuments localeCompare_ordinal
      [doc_ex "a.pdf" "2024-05-01T10:00:00.000Z";
       doc_ex "b.pdf" "2024-06-01T10:00:00.000Z"] reindexed.
Proof.
  apply (proj2 (X12_merge_keeps_documents localeCompare_ordinal
                  [doc_ex "a.pdf" "2024-05-01T10:00:00.000Z";
                   doc_ex "b.pdf" "2024-06-01T10:00:00.000Z"] reindexed)).
  - right. left.
  - vm_compute. intros H. apply list_elem_of_singleton in H. discriminate.
Defined.

Lemma NoDup_names_docs (l : list IndexedDocument) :
  NoDup (List.map d_name l) -> NoDup l.
Proof. apply (NoDup_fmap_1 d_name). Qed.

Lemma upsert_elem_iff l d x :
  NoDup (List.map d_name l) ->
  x ∈ upsert l d <-> x = d \/ (x ∈ l /\ d_name x <> d_name d).
Proof.
  intros Hnd. split; [apply upsert_elem, Hnd|].
  intros [->|[Hx Hne]]; [apply upsert_has|apply upsert_keeps; assumption].
Qed.

Lemma fold_upsert_elem batch : forall l x,
  NoDup (List.map d_name l) -> NoDup (List.map d_name batch) ->
  x ∈ fold_left upsert batch l
  <-> (x ∈ l /\ d_name x ∉ List.map d_name batch) \/ x ∈ batch.
Proof.
  induction batch as [|d batch IH]; simpl; intros l x Hl Hb.
  - split; [intros H; left; split; [exact H|intros E; inversion E]|].
    intros [[H _]|H]; [exact H|inversion H].
  - apply NoDup_cons in Hb as [Hd Hb].
    rewrite (IH _ _ (upsert_NoDup l d Hl) Hb), (upsert_elem_iff _ _ _ Hl).
    rewrite not_elem_of_cons, elem_of_cons. split.
    + intros [[[->|[Hx Hne]] Hn]|H]; [tauto|tauto|tauto].
    + intros [[Hx [Hne Hn]]|[->|H]]; [tauto| |tauto].
      left. split; [left; reflexivity|exact Hd].
Qed.

(** X13: when neither the existing list nor the batch has two documents of
    one name, the merged list consists, in some order, of the existing
    documents whose name is not in the batch and of all the documents of the
    batch. *)
Theorem X13_merge_contents lc prev batch :
  NoDup (List.map d_name prev) -> NoDup (List.map d_name batch) ->
  Permutation (mergeDocuments lc prev batch)
    (List.filter (fun x => bool_decide (d_name x ∉ List.map d_name batch)) prev
     ++ batch).
Proof.
  intros Hp Hb. apply NoDup_Permutation.
  - apply NoDup_names_docs, mergeDocuments_NoDup, Hp.
  - apply NoDup_app. split; [|split].
    + apply NoDup_ListNoDup, List.NoDup_filter, NoDup_ListNoDup, NoDup_names_docs, Hp.
    + intros x Hx Hx'. apply list_elem_of_In, filter_In in Hx as [_ Hx].
      apply bool_decide_eq_true in Hx. apply Hx, elem_of_map_name, Hx'.
    + apply NoDup_names_docs, Hb.
  - intros x. rewrite mergeDocuments_elem, (fold_upsert_elem _ _ _ Hp Hb).
    rewrite elem_of_app. split; (intros [H|H]; [left|right; exact H]).
    + destruct H as [H1 H2]. apply list_elem_of_In, filter_In.
      split; [apply list_elem_of_In, H1|apply bool_decide_eq_true, H2].
    + apply list_elem_of_In, filter_In in H as [H1 H2].
      split; [apply list_elem_of_In, H1|apply bool_decide_eq_true in H2; exact H2].
Qed.

Lemma X13_merge_contents_witness :
  Permutation
    (mergeDocuments localeCompare_ordinal
       [doc_ex "a.pdf" "2024-05-01T10:00:00.000Z";
        doc_ex "b.pdf" "2024-06-01T10:00:00.000Z"] reindexed)
    ([doc_ex "b.pdf" "2024-06-01T10:00:00.000Z"] ++ reindexed).
Proof.
  apply (X13_merge_contents localeCompare_ordinal
           [doc_ex "a.pdf" "2024-05-01T10:00:00.000Z";
            doc_ex "b.pdf" "2024-06-01T10:00:00.000Z"] reindexed).
  - apply (bool_decide_unpack _). vm_compute. reflexivity.
  - apply (bool_decide_unpack _). vm_compute. reflexivity.
Defined.

(** ** An upload, from the document manager to the dashboard *)

Lemma indexedDocuments_of_spec files : forall generateId indexedAt,
  List.map d_name (indexedDocuments_of generateId indexedAt files)
  = List.map f_name files
  /\ Forall (fun d => d_indexedAt d = Some indexedAt)
       (indexedDocuments_of generateId indexedAt files).
Proof.
  unfold indexedDocuments_of.
  induction files as [|f files IH]; intros generateId indexedAt; simpl.
  - split; [reflexivity|constructor].
  - destruct (IH (generateId ∘ S) indexedAt) as [H1 H2].
    split; [f_equal; exact H1|]. constructor; [reflexivity|exact H2].
Qed.

Lemma fold_upsert_last batch l :
  batch <> [] -> exists d, d ∈ batch /\ d ∈ fold_left upsert batch l.
Proof.
  destruct batch as [|d batch _] using rev_ind; [congruence|]. intros _.
  exists d. split; [apply elem_of_app; right; left|].
  rewrite fold_left_app. simpl. apply upsert_has.
Qed.

Lemma effect_latestIndexedAt_fields st :
  documents (effect_latestIndexedAt st) = documents st
  /\ lastMessage (effect_latestIndexedAt st) = lastMessage st.
Proof.
  unfold effect_latestIndexedAt.
  destruct (length (documents st) =? 0)%nat; split; reflexivity.
Qed.

Lemma reduce_latest_bound docs d :
  d ∈ docs -> str_le (indexedAt_or_empty d) (latest_or_empty (reduce_latest docs)).
Proof.
  intros H. apply list_elem_of_In in H.
  apply (proj2 (fold_latest_bound docs _) d H).
Qed.

(** X14: when files are selected and the upload succeeds, the selection is
    emptied while the error text stays as it was; once the effect on the
    documents has run, every selected file name is the name of a listed
    document, the latest indexing time is not older than the completion
    time of the upload, the status message is the one of the response, and
    the dashboard is ready again; one toast is shown, with the message of
    the response when it has one. *)
Theorem X14_upload_succeeds lc toLocaleString generateId indexedAt fetched
    response ms dash :
  selectedFiles ms <> [] ->
  indexDocuments fetched = inr response ->
  exists dash' description,
    manager_handleIndexDocuments toLocaleString
      (fun files st =>
         handleIndexDocuments (mergeDocuments lc) generateId indexedAt files
           fetched st) ms dash
    = (dash', {| selectedFiles := []; errorText := errorText ms |},
       [IndexRequested (selectedFiles ms);
        ToastShown INDEX_SUCCEEDED description false])
    /\ (forall text, ir_message response = Some text -> description = text)
    /\ (forall f, f ∈ selectedFiles ms ->
          f_name f ∈ List.map d_name (documents (effect_latestIndexedAt dash')))
    /\ str_gt indexedAt
         (latest_or_empty (lastIndexedAt (effect_latestIndexedAt dash'))) = false
    /\ lastMessage (effect_latestIndexedAt dash') = ir_message response
    /\ isIndexing (effect_latestIndexedAt dash') = false
    /\ isReady (effect_latestIndexedAt dash') = true.
Proof.
  intros Hsel Hok. unfold manager_handleIndexDocuments.
  destruct (selectedFiles ms) as [|f0 files0] eqn:Es; [congruence|].
  cbn [length Nat.eqb]. unfold handleIndexDocuments. rewrite Hok.
  cbn [index_settle]. eexists _, _. split; [reflexivity|].
  set (files := f0 :: files0) in *.
  set (batch := indexedDocuments_of generateId indexedAt files).
  set (dash' := index_finally
                  (index_try (mergeDocuments lc) generateId indexedAt files response
                     (index_begin dash))).
  destruct (indexedDocuments_of_spec files generateId indexedAt) as [Hnames Hstamp].
  fold batch in Hnames, Hstamp.
  assert (Hdocs : documents dash' = mergeDocuments lc (documents dash) batch)
    by reflexivity.
  destruct (effect_latestIndexedAt_fields dash') as [Ed Em].
  destruct (effect_latestIndexedAt_flags dash') as [Ei Er].
  split; [intros text ->; reflexivity|].
  split; [|split; [|split; [|split]]].
  - intros f Hf. rewrite Ed, Hdocs. unfold mergeDocuments.
    rewrite (Permutation_map d_name (array_sort_perm _ _)).
    apply fold_upsert_names. right. rewrite Hnames.
    apply list_elem_of_In, in_map, list_elem_of_In, Hf.
  - unfold effect_latestIndexedAt.
    destruct (length (documents dash') =? 0)%nat.
    + simpl. apply str_le_refl.
    + cbn [lastIndexedAt setLastIndexedAt].
      assert (Hb : batch <> []).
      { intros E. rewrite E in Hnames. discriminate. }
      destruct (fold_upsert_last batch (documents dash) Hb) as (d & Hd & Hin).
      assert (Hk : indexedAt_or_empty d = indexedAt).
      { rewrite Forall_forall in Hstamp. unfold indexedAt_or_empty.
        rewrite (Hstamp d Hd). reflexivity. }
      rewrite <- Hk at 1. apply reduce_latest_bound.
      rewrite Hdocs. apply mergeDocuments_elem, Hin.
  - rewrite Em. reflexivity.
  - rewrite Ei. reflexivity.
  - rewrite Er. reflexivity.
Qed.

Lemma X14_upload_succeeds_witness :
  exists dash',
    fst (fst (manager_handleIndexDocuments (fun t => t)
                (fun files st =>
                   handleIndexDocuments (mergeDocuments localeCompare_ordinal)
                     (fun _ => lit "id-1") (lit "2024-05-01T10:00:00.000Z") files
                     (inr {| fr_ok := true; fr_status := 200;
                             fr_json := inr {| ir_message := None |} |}) st)
                {| selectedFiles := [file_ex]; errorText := None |}
                initialDashboard)) = dash'
    /\ lit "rules.pdf" ∈ List.map d_name (documents (effect_latestIndexedAt dash')).
Proof.
  destruct (X14_upload_succeeds localeCompare_ordinal (fun t => t)
              (fun _ => lit "id-1") (lit "2024-05-01T10:00:00.000Z")
              (inr {| fr_ok := true; fr_status := 200;
                      fr_json := inr {| ir_message := None |} |})
              {| ir_message := None |}
              {| selectedFiles := [file_ex]; errorText := None |}
              initialDashboard ltac:(discriminate) eq_refl)
    as (dash' & description & E & _ & Hnames & _).
  exists dash'. split; [rewrite E; reflexivity|].
  apply (Hnames file_ex). left.
Defined.

Lemma index_finally_begin st :
  isIndexing st = false -> isReady st = true -> index_finally (index_begin st) = st.
Proof. destruct st. simpl. intros -> ->. reflexivity. Qed.

(** X15: an upload that cannot go through leaves the dashboard as it was.
    With no file selected the manager only sets its error text and makes no
    request; when the request fails on an idle dashboard, the documents,
    the latest indexing time, the status message and the flags are those
    from before, the selection is kept for another try, and the error text
    and the toast carry the message of the failure, or the generic text when
    what was thrown is not an [Error]. This holds for both versions of the
    dashboard. *)
Theorem X15_upload_fails updater toLocaleString generateId indexedAt fetched
    ms dash :
  (selectedFiles ms = [] ->
   manager_handleIndexDocuments toLocaleString
     (fun files st =>
        handleIndexDocuments updater generateId indexedAt files fetched st) ms dash
   = (dash, {| selectedFiles := []; errorText := Some NO_FILE_SELECTED |}, []))
  /\ forall err,
       selectedFiles ms <> [] ->
       isIndexing dash = false -> isReady dash = true ->
       indexDocuments fetched = inl err ->
       manager_handleIndexDocuments toLocaleString
         (fun files st =>
            handleIndexDocuments updater generateId indexedAt files fetched st)
         ms dash
       = (dash,
          {| selectedFiles := selectedFiles ms;
             errorText := Some (match err with
                                | ErrorObject msg => msg
                                | OtherValue => INDEX_FAILED
                                end) |},
          [IndexRequested (selectedFiles ms);
           ToastShown ERROR_OCCURRED
             (match err with ErrorObject msg => msg | OtherValue => INDEX_FAILED end)
             true]).
Proof.
  split.
  - intros E. unfold manager_handleIndexDocuments, setError. rewrite E. reflexivity.
  - intros err Hsel Hi Hr Hfail. unfold manager_handleIndexDocuments.
    destruct (selectedFiles ms) as [|f0 files0] eqn:Es; [congruence|].
    cbn [length Nat.eqb]. unfold handleIndexDocuments. rewrite Hfail.
    cbn [index_settle]. rewrite (index_finally_begin _ Hi Hr).
    unfold setError. rewrite Es. reflexivity.
Qed.

Lemma X15_upload_fails_witness :
  manager_handleIndexDocuments (fun t => t)
    (fun files st =>
       handleIndexDocuments appendDocuments (fun _ => lit "id-1")
         (lit "2024-05-01T10:00:00.000Z") files
         (inr {| fr_ok := false; fr_status := 502; fr_json := inl OtherValue |}) st)
    {| selectedFiles := [file_ex]; errorText := None |} three_documents
  = (three_documents,
     {| selectedFiles := [file_ex];
        errorText := Some (lit "Index request failed with status 502") |},
     [IndexRequested [file_ex];
      ToastShown ERROR_OCCURRED (lit "Index request failed with status 502") true]).
Proof.
  apply (proj2 (X15_upload_fails appendDocuments (fun t => t) (fun _ => lit "id-1")
                  (lit "2024-05-01T10:00:00.000Z")
                  (inr {| fr_ok := false; fr_status := 502;
                          fr_json := inl OtherValue |})
                  {| selectedFiles := [file_ex]; errorText := None |}
                  three_documents)
           (ErrorObject (lit "Index request failed with status 502"))).
  - discriminate.
  - reflexivity.
  - reflexivity.
  - vm_compute. reflexivity.
Defined.

(** ** The conversation registry *)

Lemma persist_conversations_twice stringify window l1 l2 :
  l2 <> [] ->
  persist_conversations stringify (persist_conversations stringify window l1) l2
  = persist_conversations stringify window l2.
Proof.
  intros H2. destruct window as [ls|]; [|reflexivity].
  unfold persist_conversations.
  destruct l2 as [|c2 l2]; [congruence|]. simpl.
  destruct (length l1 =? 0)%nat; [reflexivity|].
  rewrite insert_insert_eq. reflexivity.
Qed.

Lemma registry_step_spec stringify window cfg ev base newer :
  conversations (fst cfg) = newer ++ base ->
  snd cfg = persist_conversations stringify window (conversations (fst cfg)) ->
  exists newer',
    conversations (fst (registry_step stringify cfg ev)) = newer' ++ base
    /\ length newer' = (length newer + created_count [ev])%nat
    /\ snd (registry_step stringify cfg ev)
       = persist_conversations stringify window
           (conversations (fst (registry_step stringify cfg ev))).
Proof.
  intros Hc Hw. destruct ev as [now time|id]; simpl.
  - eexists (_ :: newer). rewrite Hc. split; [reflexivity|].
    split; [unfold created_count; simpl; lia|].
    rewrite Hw. apply persist_conversations_twice. discriminate.
  - exists newer. split; [exact Hc|]. split; [unfold created_count; simpl; lia|].
    exact Hw.
Qed.

Lemma created_count_cons ev evs :
  created_count (ev :: evs) = (created_count [ev] + created_count evs)%nat.
Proof. unfold created_count. simpl. destruct ev; simpl; lia. Qed.

Lemma registry_fold_spec stringify window evs : forall cfg base newer,
  conversations (fst cfg) = newer ++ base ->
  snd cfg = persist_conversations stringify window (conversations (fst cfg)) ->
  exists newer',
    conversations (fst (fold_left (registry_step stringify) evs cfg)) = newer' ++ base
    /\ length newer' = (length newer + created_count evs)%nat
    /\ snd (fold_left (registry_step stringify) evs cfg)
       = persist_conversations stringify window
           (conversations (fst (fold_left (registry_step stringify) evs cfg))).
Proof.
  induction evs as [|ev evs IH]; simpl; intros cfg base newer Hc Hw.
  - exists newer. split; [exact Hc|]. split; [unfold created_count; simpl; lia|exact Hw].
  - destruct (registry_step_spec stringify window cfg ev base newer Hc Hw)
      as (n1 & H1 & H2 & H3).
    destruct (IH _ base n1 H1 H3) as (n2 & H4 & H5 & H6).
    exists n2. split; [exact H4|]. split; [|exact H6].
    rewrite created_count_cons. lia.
Qed.

(** X16: whatever is created or selected in the sidebar, no conversation is
    removed or moved: the list is the one restored at mount with the
    created conversations in front, one for each creation; the storage
    holds what a single write of the final list would leave, so it is
    untouched as long as the list is empty; and when nothing was stored,
    the list ends with the default conversation. *)
Theorem X16_registry_grows (parse : jsstring -> Thrown + list Conversation)
    (stringify : jsvalue -> jsstring)
    (localStorage : gmap jsstring jsstring) (evs : list RegistryEvent) :
  let start := registry_start parse stringify (Some localStorage) in
  let final := registry_run parse stringify (Some localStorage) evs in
  (exists newer,
     conversations (fst final) = newer ++ conversations (fst start)
     /\ length newer = created_count evs)
  /\ snd final
     = persist_conversations stringify (Some localStorage) (conversations (fst final))
  /\ (localStorage !! CONVERSATION_STORAGE_KEY = None ->
      last (conversations (fst final)) = Some defaultConversation
      /\ (evs = [] -> activeConversationId (fst final) = c_id defaultConversation)).
Proof.
  cbv zeta. unfold registry_run.
  destruct (registry_fold_spec stringify (Some localStorage) evs
              (registry_start parse stringify (Some localStorage))
              (conversations (fst (registry_start parse stringify
                                     (Some localStorage)))) [] eq_refl eq_refl)
    as (newer & H1 & H2 & H3).
  split; [exists newer; split; [exact H1|exact H2]|]. split; [exact H3|].
  intros Hnone. rewrite H1. unfold registry_start, mount_conversations.
  rewrite Hnone. cbn [fst conversations setActiveConversationId setConversations].
  split; [apply last_snoc|].
  intros ->. reflexivity.
Qed.

Lemma X16_registry_grows_witness :
  last (conversations
          (fst (registry_run (fun _ => inr []) (fun _ => lit "[]") (Some ∅)
                  [Created (lit "1700000000000") (lit "10:00 AM");
                   Selected (lit "1")])))
  = Some defaultConversation.
Proof.
  refine (proj1 (proj2 (proj2 (X16_registry_grows
                                 (fun _ => inr []) (fun _ => lit "[]") ∅
                                 [Created (lit "1700000000000") (lit "10:00 AM");
                                  Selected (lit "1")])) _)).
  reflexivity.
Defined.

(** X17: a reload restores the conversations: when [JSON.parse] reads back
    the text [JSON.stringify] wrote for a non-empty list, mounting on the
    storage the persistence effect left restores that list, and selects its
    first conversation, whichever conversation was active before. *)
Theorem X17_conversations_reload (parse : jsstring -> Thrown + list Conversation)
    (stringify : jsvalue -> jsstring)
    (localStorage : gmap jsstring jsstring) (convs : list Conversation)
    (st : DashboardState) :
  convs <> [] ->
  stringify (JArr (List.map conversation_to_js convs)) <> [] ->
  parse (stringify (JArr (List.map conversation_to_js convs))) = inr convs ->
  let reloaded :=
    mount_conversations parse
      (persist_conversations stringify (Some localStorage) convs) st in
  conversations reloaded = convs
  /\ Some (activeConversationId reloaded) = c_id <$> head convs.
Proof.
  intros Hne Htext Hparse. unfold persist_conversations, mount_conversations.
  destruct convs as [|c convs]; [congruence|]. cbn [length Nat.eqb].
  rewrite lookup_insert_eq.
  destruct (stringify (JArr (List.map conversation_to_js (c :: convs))))
    as [|x text] eqn:E; [congruence|].
  rewrite Hparse. split; reflexivity.
Qed.

Lemma X17_conversations_reload_witness :
  conversations
    (mount_conversations (fun _ => inr [defaultConversation])
       (persist_conversations (fun _ => lit "[{}]") (Some ∅) [defaultConversation])
       initialDashboard)
  = [defaultConversation].
Proof.
  refine (proj1 (X17_conversations_reload (fun _ => inr [defaultConversation])
                   (fun _ => lit "[{}]") ∅ [defaultConversation] initialDashboard
                   _ _ _)).
  - discriminate.
  - discriminate.
  - reflexivity.
Defined.

(** ** The documents at start-up *)

Lemma commit_documents_lookup (stringify : jsvalue -> jsstring)
    (localStorage : gmap jsstring jsstring) (st : DashboardState) :
  exists after,
    commit_documents stringify (Some localStorage) st = Some after
    /\ after !! DOCUMENT_STORAGE_KEY
       = Some (stringify (JArr (List.map document_to_js (documents st))))
    /\ after !! DOCUMENT_MESSAGE_KEY
       = (if str_falsy (lastMessage st) then None else lastMessage st).
Proof.
  unfold commit_documents, persist_documents, persist_lastMessage.
  assert (Hne : DOCUMENT_MESSAGE_KEY <> DOCUMENT_STORAGE_KEY) by discriminate.
  destruct (lastMessage st) as [[|c s]|]; eexists; (split; [reflexivity|]); simpl.
  - rewrite lookup_delete_ne, lookup_insert_eq, lookup_delete_eq by exact Hne. auto.
  - rewrite lookup_insert_ne, !lookup_insert_eq by exact Hne. auto.
  - rewrite lookup_delete_ne, lookup_insert_eq, lookup_delete_eq by exact Hne. auto.
Qed.

(** X18: after start-up the storage always holds the serialization of the
    document list the dashboard shows, and the last status message exactly
    when the dashboard shows one. A stored document text that parses is
    restored. One that does not parse leaves the list empty and the message
    unrestored, and both stored values are lost: the text is replaced by the
    serialization of the empty list and the message key is removed. *)
Theorem X18_documents_at_startup
    (parse : jsstring -> Thrown + list IndexedDocument)
    (stringify : jsvalue -> jsstring)
    (localStorage : gmap jsstring jsstring) :
  let st := fst (start_documents parse stringify (Some localStorage)) in
  (exists after,
     snd (start_documents parse stringify (Some localStorage)) = Some after
     /\ after !! DOCUMENT_STORAGE_KEY
        = Some (stringify (JArr (List.map document_to_js (documents st))))
     /\ after !! DOCUMENT_MESSAGE_KEY
        = (if str_falsy (lastMessage st) then None else lastMessage st))
  /\ forall c text,
       localStorage !! DOCUMENT_STORAGE_KEY = Some (c :: text) ->
       (forall parsed, parse (c :: text) = inr parsed -> documents st = parsed)
       /\ (forall thrown, parse (c :: text) = inl thrown ->
             documents st = [] /\ lastMessage st = None).
Proof.
  cbv zeta. unfold start_documents. cbn [fst snd].
  set (st := mount_stored_documents parse (Some localStorage) initialDashboard).
  destruct (effect_latestIndexedAt_fields st) as [Ed Em]. rewrite Ed, Em.
  split.
  - destruct (commit_documents_lookup stringify localStorage initialDashboard)
      as (w1 & E1 & _).
    rewrite E1. apply commit_documents_lookup.
  - intros c text Hstored. unfold st, mount_stored_documents. rewrite Hstored.
    split.
    + intros parsed ->. unfold mount_lastMessage.
      destruct (localStorage !! DOCUMENT_MESSAGE_KEY) as [[|x m]|];
        unfold mount_documents; destruct (0 <? length parsed)%nat; reflexivity.
    + intros thrown ->. split; reflexivity.
Qed.

Lemma X18_documents_at_startup_witness :
  documents
    (fst (start_documents (fun _ => inl (ErrorObject (lit "Unexpected token")))
            (fun _ => lit "[]")
            (Some ({[DOCUMENT_STORAGE_KEY := lit "{oops"]}))))
  = [].
Proof.
  refine (proj1 (proj2 (proj2 (X18_documents_at_startup
                                 (fun _ => inl (ErrorObject (lit "Unexpected token")))
                                 (fun _ => lit "[]")
                                 {[DOCUMENT_STORAGE_KEY := lit "{oops"]})
                          123 (lit "oops") _)
                   (ErrorObject (lit "Unexpected token")) eq_refl)).
  vm_compute. reflexivity.
Defined.

(** ** The content is made of the answer *)

Lemma replace_nil re by_ : replace re by_ [] = [].
Proof. unfold replace. simp scan. reflexivity. Qed.

Lemma remove_sublist re s : (forall t, re t <> Some O) -> replace re [] s `sublist_of` s.
Proof.
  intros Hre. induction s as [|c s' k E IH|c s' E IH] using (scan_ind' re).
  - unfold replace. simp scan. constructor.
  - rewrite (replace_matched _ _ _ _ _ E). simpl.
    apply sublist_cons. etransitivity; [exact IH|apply sublist_drop].
  - destruct E as [E|E]; [|destruct (Hre _ E)].
    rewrite (replace_unmatched _ _ _ _ E). apply sublist_skip, IH.
Qed.

Lemma re_newlines_run s n :
  re_newlines s = Some n -> n = run_length is_newline s /\ (3 <= n)%nat.
Proof.
  unfold re_newlines. destruct (3 <=? run_length is_newline s)%nat eqn:E;
    [|discriminate].
  intros [= <-]. apply Nat.leb_le in E. auto.
Qed.

Lemma run_length_cons p s j :
  run_length p s = S j -> exists c t, s = c :: t /\ p c = true /\ run_length p t = j.
Proof.
  destruct s as [|c t]; simpl; [discriminate|].
  destruct (p c) eqn:E; [|discriminate]. intros [= <-]. eauto.
Qed.

Lemma is_newline_eq c : is_newline c = true -> c = NEWLINE.
Proof. apply N.eqb_eq. Qed.

Lemma collapse_sublist s :
  replace re_newlines [NEWLINE; NEWLINE] s `sublist_of` s.
Proof.
  induction s as [|c s' k E IH|c s' E IH] using (scan_ind' re_newlines).
  - rewrite replace_nil. constructor.
  - rewrite (replace_matched _ _ _ _ _ E).
    apply re_newlines_run in E as [Hk H3].
    symmetry in Hk. apply run_length_cons in Hk as (x & t & [= <- <-] & Hx & Hk).
    apply is_newline_eq in Hx. subst c.
    destruct k as [|j]; [lia|].
    apply run_length_cons in Hk as (y & u & -> & Hy & Hj).
    apply is_newline_eq in Hy. subst y. simpl.
    apply sublist_skip, sublist_skip.
    etransitivity; [exact IH|]. simpl. apply sublist_drop.
  - destruct E as [E|E]; [|destruct (re_newlines_nonzero _ E)].
    rewrite (replace_unmatched _ _ _ _ E). apply sublist_skip, IH.
Qed.

Lemma trim_sublist s : trim s `sublist_of` s.
Proof.
  destruct (trim_split s) as (l & r & Hs & _). rewrite Hs at 2.
  apply sublist_inserts_l, sublist_inserts_r. reflexivity.
Qed.

(** X19: the content shown is made of code units of the answer, in their
    order: the parser drops text and adds none. *)
Theorem X19_content_within_answer answer :
  pa_content (parseAnswer answer) `sublist_of` answer.
Proof.
  unfold parseAnswer. cbn [pa_content].
  match goal with |- context [(0 <? length ?c0)%nat] =>
    destruct (0 <? length c0)%nat end; [|apply trim_sublist].
  destruct (matchAll re_bracket answer); [apply trim_sublist|].
  etransitivity; [apply trim_sublist|].
  etransitivity; [apply collapse_sublist|].
  apply remove_sublist, re_bracket_nonzero.
Qed.

(** ** Runs of newlines *)

Lemma free_matchAll re s :
  (forall t, re t <> Some O) -> free re s <-> matchAll re s = [].
Proof.
  intros Hre. split.
  - induction s as [|c s IH]; simpl.
    + intros _. unfold matchAll. simp scan. reflexivity.
    + intros [E H]. rewrite (matchAll_unmatched _ _ _ E). auto.
  - induction s as [|c s' k E IH|c s' E IH] using (scan_ind' re).
    + intros _. exact I.
    + rewrite (matchAll_matched _ _ _ _ E). discriminate.
    + destruct E as [E|E]; [|destruct (Hre _ E)].
      rewrite (matchAll_unmatched _ _ _ E). intros H. split; auto.
Qed.

Lemma re_newlines_none s : re_newlines s = None <-> (run_length is_newline s < 3)%nat.
Proof.
  unfold re_newlines. destruct (3 <=? run_length is_newline s)%nat eqn:E.
  - apply Nat.leb_le in E. split; [discriminate|lia].
  - apply Nat.leb_gt in E. split; [intros _; exact E|reflexivity].
Qed.

Lemma collapse_short_run s :
  (run_length is_newline s < 3)%nat ->
  run_length is_newline (replace re_newlines [NEWLINE; NEWLINE] s)
  = run_length is_newline s.
Proof.
  induction s as [|c s IH]; [intros _; rewrite replace_nil; reflexivity|].
  intros H. rewrite replace_unmatched by (apply re_newlines_none, H).
  simpl in *. destruct (is_newline c); [|reflexivity].
  rewrite IH by lia. reflexivity.
Qed.

Lemma run_length_after_run p s : run_length p (drop (run_length p s) s) = O.
Proof.
  induction s as [|c s IH]; simpl; [reflexivity|].
  destruct (p c) eqn:E; simpl; [exact IH|]. rewrite E. reflexivity.
Qed.

Lemma collapse_free s : free re_newlines (replace re_newlines [NEWLINE; NEWLINE] s).
Proof.
  induction s as [|c s' k E IH|c s' E IH] using (scan_ind' re_newlines).
  - rewrite replace_nil. exact I.
  - rewrite (replace_matched _ _ _ _ _ E).
    apply re_newlines_run in E as [Hk _]. simpl in Hk.
    destruct (is_newline c); [|discriminate]. injection Hk as ->.
    assert (H0 : run_length is_newline
                   (replace re_newlines [NEWLINE; NEWLINE]
                      (drop (run_length is_newline s') s')) = O).
    { rewrite collapse_short_run; rewrite run_length_after_run; [reflexivity|lia]. }
    set (rest := replace re_newlines [NEWLINE; NEWLINE]
                   (drop (run_length is_newline s') s')) in *.
    change (free re_newlines (NEWLINE :: NEWLINE :: rest)).
    split; [|split; [|exact IH]]; apply re_newlines_none;
      change (run_length is_newline (NEWLINE :: NEWLINE :: rest))
        with (S (S (run_length is_newline rest)));
      change (run_length is_newline (NEWLINE :: rest))
        with (S (run_length is_newline rest));
      rewrite H0; lia.
  - destruct E as [E|E]; [|destruct (re_newlines_nonzero _ E)].
    rewrite (replace_unmatched _ _ _ _ E). split; [|exact IH].
    apply re_newlines_none. apply re_newlines_none in E. simpl in *.
    destruct (is_newline c); [|lia].
    rewrite collapse_short_run by lia. exact E.
Qed.

Lemma run_length_app_le p a b :
  (run_length p a <= run_length p (a ++ b))%nat.
Proof.
  induction a as [|c a IH]; simpl; [lia|]. destruct (p c); lia.
Qed.

Lemma free_newlines_app_r a b : free re_newlines (a ++ b) -> free re_newlines b.
Proof. induction a as [|c a IH]; simpl; [auto|]. intros [_ H]. auto. Qed.

Lemma free_newlines_app_l a b : free re_newlines (a ++ b) -> free re_newlines a.
Proof.
  induction a as [|c a IH]; simpl; [auto|]. intros [E H]. split; [|auto].
  apply re_newlines_none. apply re_newlines_none in E.
  pose proof (run_length_app_le is_newline (c :: a) b) as Hle. simpl in *. lia.
Qed.

Lemma trim_free_newlines s : free re_newlines s -> free re_newlines (trim s).
Proof.
  destruct (trim_split s) as (l & r & Hs & _). intros H. rewrite Hs in H.
  eapply free_newlines_app_l, free_newlines_app_r, H.
Qed.

(** X20: when the answer has a bracketed span and more than spans and
    white space, the content shown has no run of three or more newlines.
    (Without a span the answer is only trimmed, and its runs stay.) *)
Theorem X20_content_newline_runs answer :
  matchAll re_bracket answer <> [] ->
  only_spans answer = false ->
  matchAll re_newlines (pa_content (parseAnswer answer)) = [].
Proof.
  intros Hm Ho. unfold only_spans in Ho. unfold parseAnswer. cbn [pa_content].
  destruct (matchAll re_bracket answer) as [|m ms]; [congruence|].
  set (c0 := trim (replace re_newlines [NEWLINE; NEWLINE]
                     (replace re_bracket [] answer))).
  destruct (0 <? length c0)%nat eqn:E0.
  - apply free_matchAll; [apply re_newlines_nonzero|].
    apply trim_free_newlines, collapse_free.
  - apply length_zero_nil in E0. unfold c0 in E0. apply stripped_nil in E0.
    congruence.
Qed.

Lemma X20_content_newline_runs_witness :
  matchAll re_newlines
    (pa_content (parseAnswer [97; 10; 10; 10; 10; 91; 98; 93; 10; 99])) = []
  /\ matchAll re_newlines
       (pa_content (parseAnswer [97; 10; 10; 10; 10; 98])) <> [].
Proof.
  split.
  - apply (X20_content_newline_runs [97; 10; 10; 10; 10; 91; 98; 93; 10; 99]).
    + vm_compute. discriminate.
    + vm_compute. reflexivity.
  - vm_compute. discriminate.
Defined.

(** ** The status in the message of a failed request *)




(** ** Documents are not lost during a session *)

Lemma mergeDocuments_names_grow lc prev batch n :
  n ∈ List.map d_name prev -> n ∈ List.map d_name (mergeDocuments lc prev batch).
Proof.
  intros H. unfold mergeDocuments.
  rewrite (Permutation_map d_name (array_sort_perm _ _)).
  apply fold_upsert_names. left. exact H.
Qed.

Lemma lifecycle_step_names lc cfg ev cfg' n :
  match ev with Mounted _ => False | _ => True end ->
  lifecycle_step (mergeDocuments lc) cfg ev = Some cfg' ->
  n ∈ List.map d_name (documents (snd cfg)) ->
  n ∈ List.map d_name (documents (snd cfg')).
Proof.
  destruct cfg as [pending st].
  destruct ev as [parsed| |generateId indexedAt files outcome|]; intros Hev;
    [destruct Hev|..]; destruct pending; simpl; try discriminate;
    intros [= <-]; simpl; try tauto.
  - destruct outcome as [e|response]; simpl; [tauto|].
    apply mergeDocuments_names_grow.
  - rewrite (proj1 (effect_latestIndexedAt_fields st)). tauto.
  - rewrite (proj1 (effect_latestIndexedAt_fields st)). tauto.
Qed.

(** X22: once the dashboard is mounted, no event of the indexing lifecycle
    takes a document name off the list: a name listed before a sequence of
    events is listed after it. *)
Theorem X22_names_never_lost lc evs : forall cfg cfg' n,
  after_mount evs ->
  lifecycle_run (mergeDocuments lc) cfg evs = Some cfg' ->
  n ∈ List.map d_name (documents (snd cfg)) ->
  n ∈ List.map d_name (documents (snd cfg')).
Proof.
  induction evs as [|ev evs IH]; simpl; intros cfg cfg' n Hevs.
  - intros [= <-]. tauto.
  - apply Forall_cons in Hevs as [Hev Hevs].
    destruct (lifecycle_step (mergeDocuments lc) cfg ev) as [cfg1|] eqn:E;
      [|discriminate].
    intros Hrun Hn. apply (IH cfg1 cfg' n Hevs Hrun).
    eapply lifecycle_step_names; eassumption.
Qed.

Lemma X22_names_never_lost_witness :
  exists st,
    lifecycle_run (mergeDocuments localeCompare_ordinal) (false, three_documents)
      one_indexing = Some (false, st)
    /\ lit "b.pdf" ∈ List.map d_name (documents st).
Proof.
  eexists. split; [vm_compute; reflexivity|].
  refine (X22_names_never_lost localeCompare_ordinal one_indexing
            (false, three_documents) (false, _) (lit "b.pdf") _ _ _).
  - unfold after_mount, one_indexing. repeat constructor.
  - vm_compute. reflexivity.
  - right. left.
Defined.
